(** * Pitch-event filtering and aggregation (Jackson Holliday project code)

    A shallow embedding of the data-filtering and aggregation logic of the
    script: the two static category tables, [player_data_filtered] with its
    three selectors, the whiff-rate expression
    [round((len(..) / len(..)) * 100, 2)] and the column mean
    [data['estimated_woba_using_speedangle'].mean()].

    Python exceptions are modelled by an error monad, pandas frames by a
    column-name list plus a list of rows, Python dicts by [gmap], and the
    binary64 arithmetic of Python's [/], [*] and [round] and of the column
    mean by exact results rounded to the nearest double. *)

From Stdlib Require Import ZArith QArith Qround Qpower Qabs Qreduction Lia Lqa.
From Stdlib Require Import Uint63 PrimFloat SpecFloat FloatOps.
From stdpp Require Import base decidable option list gmap strings.

Local Open Scope string_scope.
Local Open Scope list_scope.

(** ** Exceptions *)

Inductive exn : Type :=
| KeyError (key : string)
| TypeError
| ZeroDivisionError
| OverflowError
| ProviderError (msg : string).

Inductive result (A : Type) : Type :=
| Ok (a : A)
| Raise (e : exn).
Arguments Ok {A} a.
Arguments Raise {A} e.

#[global] Instance result_ret : MRet result := λ A a, Ok a.
#[global] Instance result_bind : MBind result := λ A B f m,
  match m with
  | Ok a => f a
  | Raise e => Raise e
  end.

#[global] Instance result_fmap : FMap result := λ A B f m,
  match m with
  | Ok a => Ok (f a)
  | Raise e => Raise e
  end.

(** ** Frames *)

(** A cell of a frame: a missing value (pandas NaN / None), a string code, or
    a finite number. *)
Inductive cell : Type :=
| NA
| Str (s : string)
| Num (q : Q).

Definition Row : Type := list cell.

Record DataFrame : Type := mkDataFrame {
  columns : list string;
  rows : list Row
}.

(** [len(df)] *)
Definition len (df : DataFrame) : nat := length (rows df).

(** Position of a column label; a missing label raises [KeyError]. *)
Fixpoint index_of (name : string) (cols : list string) : option nat :=
  match cols with
  | [] => None
  | c :: cols' => if decide (c = name) then Some 0%nat else S <$> index_of name cols'
  end.

Definition column_index (df : DataFrame) (name : string) : result nat :=
  match index_of name (columns df) with
  | Some i => Ok i
  | None => Raise (KeyError name)
  end.

Definition cell_at (i : nat) (r : Row) : cell := default NA (r !! i).

(** [df[name]]: the column as a series of cells. *)
Definition getitem (df : DataFrame) (name : string) : result (list cell) :=
  i ← column_index df name;
  Ok (map (cell_at i) (rows df)).

Fixpoint column_indices (df : DataFrame) (names : list string) : result (list nat) :=
  match names with
  | [] => Ok []
  | n :: names' =>
      i ← column_index df n;
      rest ← column_indices df names';
      Ok (i :: rest)
  end.

(** [df[names]]: projection on a list of column labels, in the order given. *)
Definition getitem_columns (df : DataFrame) (names : list string) : result DataFrame :=
  idx ← column_indices df names;
  Ok (mkDataFrame names (map (λ r, map (λ i, cell_at i r) idx) (rows df))).

(** [series.isin(values)] *)
Definition isin (s : list cell) (values : list string) : list bool :=
  map (λ c, match c with
            | Str x => bool_decide (x ∈ values)
            | _ => false
            end) s.

(** [series == value] *)
Definition series_eq (s : list cell) (value : string) : list bool :=
  map (λ c, match c with
            | Str x => bool_decide (x = value)
            | _ => false
            end) s.

(** [df[mask]]: boolean indexing keeps the rows whose mask entry is true. *)
Fixpoint select_rows (mask : list bool) (rs : list Row) : list Row :=
  match mask, rs with
  | b :: mask', r :: rs' =>
      if b then r :: select_rows mask' rs' else select_rows mask' rs'
  | _, _ => []
  end.

Definition getitem_mask (df : DataFrame) (mask : list bool) : DataFrame :=
  mkDataFrame (columns df) (select_rows mask (rows df)).

(** ** Dicts *)

(** [key in d] *)
Definition dict_contains {V} (d : gmap string V) (key : string) : bool :=
  bool_decide (is_Some (d !! key)).

(** [d[key]] *)
Definition dict_getitem {V} (d : gmap string V) (key : string) : result V :=
  match d !! key with
  | Some v => Ok v
  | None => Raise (KeyError key)
  end.

(** ** The static category tables *)

Definition pitch_type_groups : gmap string (list string) :=
  list_to_map [
    ("fastball", ["FF"; "SI"; "FC"]);
    ("breaking", ["SL"; "CU"; "ST"; "SV"; "KC"]);
    ("offspeed", ["FS"; "CH"])
  ].

Definition descriptions : gmap string (list string) :=
  list_to_map [
    ("in play", ["hit_into_play"]);
    ("swinging strike", ["swinging_strike"; "swinging_strike_blocked"; "foul_tip"]);
    ("called strike", ["called_strike"]);
    ("foul", ["foul"]);
    ("ball", ["ball"; "blocked_ball"]);
    ("hit by pitch", ["hit_by_pitch"]);
    ("swing", ["hit_into_play"; "swinging_strike"; "swinging_strike_blocked";
               "foul_tip"; "foul"])
  ].

(** ** [player_data_filtered] *)

Definition projected_columns : list string :=
  [ "game_date"; "pitch_type"; "description"; "events"; "release_speed"; "p_throws";
    "batter"; "pitcher"; "home_team"; "away_team"; "balls"; "strikes"; "bb_type";
    "plate_x"; "plate_z"; "sz_top"; "sz_bot"; "hit_distance_sc"; "launch_speed";
    "launch_angle"; "estimated_woba_using_speedangle"; "woba_value" ].

(** The filtering step: the three [if] statements that follow the fetch. *)
Definition filter_engine (data : DataFrame)
    (pitch_type pitch_description pitcher_handedness : string) : result DataFrame :=
  data ← (if dict_contains pitch_type_groups pitch_type then
            s ← getitem data "pitch_type";
            codes ← dict_getitem pitch_type_groups pitch_type;
            Ok (getitem_mask data (isin s codes))
          else Ok data);
  data ← (if dict_contains descriptions pitch_description then
            s ← getitem data "description";
            codes ← dict_getitem descriptions pitch_description;
            Ok (getitem_mask data (isin s codes))
          else Ok data);
  data ← (if bool_decide (pitcher_handedness ∈ ["L"; "R"]) then
            s ← getitem data "p_throws";
            Ok (getitem_mask data (series_eq s pitcher_handedness))
          else Ok data);
  Ok data.

Section Provider.
(** The statistics provider is an external collaborator: the player
    directory lookup and the per-batter event query. *)
Variable playerid_lookup : string → string → result DataFrame.
Variable statcast_batter : string → string → Z → result DataFrame.

(** [int(series)]: defined for a one-element series holding a number,
    truncating toward zero. *)
Definition int_of_series (s : list cell) : result Z :=
  match s with
  | [Num q] => Ok (Z.quot (Qnum q) (Zpos (Qden q)))
  | _ => Raise TypeError
  end.

Definition player_id (last_name first_name : string) : result Z :=
  found ← playerid_lookup last_name first_name;
  s ← getitem found "key_mlbam";
  int_of_series s.

Definition player_data_all_columns (start_date end_date last_name first_name : string)
    : result DataFrame :=
  playerid ← player_id last_name first_name;
  statcast_batter start_date end_date playerid.

Definition player_data_filtered (start_date end_date last_name first_name : string)
    (pitch_type pitch_description pitcher_handedness : string) : result DataFrame :=
  playerid ← player_id last_name first_name;
  raw ← statcast_batter start_date end_date playerid;
  data ← getitem_columns raw projected_columns;
  filter_engine data pitch_type pitch_description pitcher_handedness.
End Provider.

(** ** Binary64 arithmetic

    Python floats are IEEE 754 binary64 numbers.  A finite float is
    represented by the rational it denotes; every operation computes the
    exact rational result and rounds it to the nearest double, ties to even. *)

Local Open Scope Q_scope.

Inductive pyfloat : Type :=
| Finite (q : Q)
| Inf (negative : bool)
| NaN.

(** Integer part of the base-2 logarithm of a positive rational. *)
Definition ilog2 (x : Q) : Z :=
  let d := (Z.log2 (Qnum x) - Z.log2 (Zpos (Qden x)))%Z in
  if Qle_bool (2 ^ d) x then d else (d - 1)%Z.

(** Nearest integer, ties to the even one. *)
Definition round_half_even (x : Q) : Z :=
  let f := Qfloor x in
  match Qcompare (x - inject_Z f) (1 # 2) with
  | Lt => f
  | Gt => (f + 1)%Z
  | Eq => if Z.even f then f else (f + 1)%Z
  end.

(** Exponent of the unit in the last place: 53 significant bits, and the
    subnormal floor at 2^-1074. *)
Definition ulp_exponent (x : Q) : Z :=
  Z.max (ilog2 (Qabs x) - 52) (-1074).

(** Round-to-nearest-even onto the binary64 grid (exponent unbounded above). *)
Definition round_binary64 (x : Q) : Q :=
  if Qeq_bool x 0 then 0
  else
    let k := ulp_exponent x in
    Qred (inject_Z (round_half_even (x / 2 ^ k)) * 2 ^ k).

(** The double nearest to an exact result, overflowing to an infinity. *)
Definition to_float (x : Q) : pyfloat :=
  let r := round_binary64 x in
  if Qle_bool (2 ^ 1024) (Qabs r) then Inf (negb (Qle_bool 0 r)) else Finite r.

(** [a / b] on Python ints: the correctly rounded quotient. *)
Definition truediv (a b : Z) : result pyfloat :=
  if decide (b = 0%Z) then Raise ZeroDivisionError
  else
    match to_float (inject_Z a / inject_Z b) with
    | Finite q => Ok (Finite q)
    | _ => Raise OverflowError
    end.

(** [x * n] for a float [x] and an int [n] that converts exactly. *)
Definition fmul_int (x : pyfloat) (n : Z) : pyfloat :=
  match x with
  | Finite q => to_float (q * inject_Z n)
  | Inf s => if decide (n = 0%Z) then NaN else Inf (xorb s (Z.ltb n 0))
  | NaN => NaN
  end.

(** [round(x, ndigits)] for [ndigits >= 0]: the exact value of [x] is rounded
    half-even at [ndigits] decimals and the decimal result is converted back
    to the nearest double; infinities and NaN round to themselves. *)
Definition py_round (x : pyfloat) (ndigits : Z) : result pyfloat :=
  match x with
  | Finite q =>
      let scale := inject_Z (10 ^ ndigits) in
      match to_float (inject_Z (round_half_even (q * scale)) / scale) with
      | Finite r => Ok (Finite r)
      | _ => Raise OverflowError
      end
  | _ => Ok x
  end.

(** The ratio-percentage expression
    [round((len(num) / len(denom)) * 100, 2)]. *)
Definition ratio_percentage (num denom : DataFrame) : result pyfloat :=
  q ← truediv (Z.of_nat (len num)) (Z.of_nat (len denom));
  py_round (fmul_int q 100) 2.

Local Close Scope Q_scope.

(** ** Aggregates of the script *)

(** [x + y] on floats. *)
Definition fadd (x y : pyfloat) : pyfloat :=
  match x, y with
  | Finite a, Finite b => to_float (a + b)%Q
  | NaN, _ | _, NaN => NaN
  | Inf s, Inf t => if Bool.eqb s t then Inf s else NaN
  | Inf s, Finite _ => Inf s
  | Finite _, Inf t => Inf t
  end.

(** [x / count] for a float and a positive count. *)
Definition fdiv_count (x : pyfloat) (count : nat) : pyfloat :=
  match x with
  | Finite a => to_float (a / inject_Z (Z.of_nat count))%Q
  | Inf s => Inf s
  | NaN => NaN
  end.

(** [series.mean()] on a float column: missing values are skipped
    ([skipna=True]).  The mean is taken in binary64, as by the loop pandas
    hands a float column to (bottleneck's [nanmean]): a running total that
    starts at 0.0 and takes each non-missing value in the order of the
    column, every sum rounded to the nearest double and overflowing to an
    infinity, and a count of the values added; the result is the total
    divided by the count, rounded again, and NaN when the count is 0.
    Where pandas falls back on numpy's sum, eight and more values are added
    in another grouping; [mean_error_any_order] covers every grouping. *)
Fixpoint series_sum_from (acc : pyfloat) (s : list cell) : result pyfloat :=
  match s with
  | [] => Ok acc
  | NA :: s' => series_sum_from acc s'
  | Num q :: s' => series_sum_from (fadd acc (Finite q)) s'
  | Str _ :: _ => Raise TypeError
  end.

Definition series_sum (s : list cell) : result pyfloat :=
  series_sum_from (Finite 0%Q) s.

Fixpoint series_count (s : list cell) : nat :=
  match s with
  | [] => 0
  | NA :: s' => series_count s'
  | _ :: s' => S (series_count s')
  end.

Definition series_mean (s : list cell) : result pyfloat :=
  total ← series_sum s;
  match series_count s with
  | O => Ok NaN
  | S _ as count => Ok (fdiv_count total count)
  end.

(** [df[name].mean()] *)
Definition mean_of_column (df : DataFrame) (name : string) : result pyfloat :=
  s ← getitem df name;
  series_mean s.

Section Script.
Variable playerid_lookup : string → string → result DataFrame.
Variable statcast_batter : string → string → Z → result DataFrame.

Let fetch := player_data_filtered playerid_lookup statcast_batter.

(** The xwOBA values: [player_data_filtered(...)[column].mean()]. *)
Definition stint_xwoba (start_date end_date pitch_type : string) : result pyfloat :=
  data ← fetch start_date end_date "Holliday" "Jackson" pitch_type "all" "all";
  mean_of_column data "estimated_woba_using_speedangle".

Definition first_stint_xwoba := stint_xwoba "2024-04-10" "2024-04-23" "all".
Definition first_stint_xwoba_fastball := stint_xwoba "2024-04-10" "2024-04-23" "fastball".
Definition first_stint_xwoba_breaking := stint_xwoba "2024-04-10" "2024-04-23" "breaking".
Definition first_stint_xwoba_offspeed := stint_xwoba "2024-04-10" "2024-04-23" "offspeed".

(** The whiff rates: swinging strikes over swings, as a percentage. *)
Definition stint_whiff_rate (start_date end_date pitch_type : string) : result pyfloat :=
  num ← fetch start_date end_date "Holliday" "Jackson" pitch_type "swinging strike" "all";
  denom ← fetch start_date end_date "Holliday" "Jackson" pitch_type "swing" "all";
  ratio_percentage num denom.

Definition overall_whiff_rate := stint_whiff_rate "2024-04-10" "2024-04-23" "all".
Definition fastball_whiff_rate := stint_whiff_rate "2024-04-10" "2024-04-23" "fastball".
Definition breaking_whiff_rate := stint_whiff_rate "2024-04-10" "2024-04-23" "breaking".
Definition offspeed_whiff_rate := stint_whiff_rate "2024-04-10" "2024-04-23" "offspeed".
Definition second_stint_overall_whiff_rate := stint_whiff_rate "2024-07-31" "2024-09-04" "all".
Definition second_fastball_whiff_rate := stint_whiff_rate "2024-07-31" "2024-09-04" "fastball".
Definition second_breaking_whiff_rate := stint_whiff_rate "2024-07-31" "2024-09-04" "breaking".
Definition second_offspeed_whiff_rate := stint_whiff_rate "2024-07-31" "2024-09-04" "offspeed".
End Script.

(** ** Row-level view of the selectors *)

(** Whether the cell of a row at a column position holds one of [codes]. *)
Definition has_code (i : nat) (codes : list string) (r : Row) : bool :=
  match cell_at i r with
  | Str x => bool_decide (x ∈ codes)
  | _ => false
  end.

(** The code set a handedness selector stands for, if it filters at all. *)
Definition handedness_codes (sel : string) : option (list string) :=
  if bool_decide (sel ∈ ["L"; "R"]) then Some [sel] else None.

(** A dimension with no code set keeps every row. *)
Definition keeps (i : nat) (codes : option (list string)) (r : Row) : bool :=
  match codes with
  | Some cs => has_code i cs r
  | None => true
  end.

(** ** Vocabulary of the statements *)

(** One dimension of the filter: with a code set the rows are restricted,
    without one the frame passes through. *)
Definition restrict (i : nat) (codes : option (list string)) (df : DataFrame) : DataFrame :=
  match codes with
  | Some cs => mkDataFrame (columns df) (filter (λ r, has_code i cs r = true) (rows df))
  | None => df
  end.

(** The raw code a row carries at a column position, if the cell is a code. *)
Definition raw_code (i : nat) (r : Row) : option string :=
  match cell_at i r with
  | Str x => Some x
  | _ => None
  end.

(** A row carries one of [codes] at a column position. *)
Definition carries (i : nat) (codes : list string) (r : Row) : Prop :=
  match raw_code i r with
  | Some x => x ∈ codes
  | None => False
  end.

#[global] Instance carries_dec i codes r : Decision (carries i codes r) :=
  match raw_code i r as o
    return Decision (match o with Some x => x ∈ codes | None => False end)
  with
  | Some x => decide (x ∈ codes)
  | None => right (λ H : False, H)
  end.

(** A row is kept by one dimension: it carries a code of the dimension's
    code set, or the dimension has no code set and keeps every row. *)
Definition kept (i : nat) (codes : option (list string)) (r : Row) : Prop :=
  match codes with
  | Some cs => carries i cs r
  | None => True
  end.

#[global] Instance kept_dec i codes r : Decision (kept i codes r) :=
  match codes as c return Decision (kept i c r) with
  | Some cs => carries_dec i cs r
  | None => left I
  end.

(** A single selector with code set [codes] on column [i] turned [T] into
    [T']: same columns, and the rows of [T'] are the rows of [T] that carry a
    code of the set, each as often as it occurs and in the order of [T]; in
    particular a sub-sequence of the rows, every kept row carrying a code of
    the set and no dropped row carrying one. *)
Definition selection (i : nat) (codes : list string) (T T' : DataFrame) : Prop :=
  columns T' = columns T ∧
  rows T' = filter (carries i codes) (rows T) ∧
  sublist (rows T') (rows T) ∧
  (∀ r, r ∈ rows T' → ∃ x, raw_code i r = Some x ∧ x ∈ codes) ∧
  (∀ r, r ∈ rows T → r ∉ rows T' → ∀ x, raw_code i r = Some x → x ∉ codes).

(** The handedness step taken on its own, after the two group steps. *)
Definition handedness_step (h : string) (data : DataFrame) : result DataFrame :=
  if bool_decide (h ∈ ["L"; "R"]) then
    s ← getitem data "p_throws";
    Ok (getitem_mask data (series_eq s h))
  else Ok data.

(** No raw code belongs to the code sets of two different groups. *)
Definition groups_disjoint (tbl : gmap string (list string)) : Prop :=
  ∀ g1 g2 c1 c2 x,
    g1 ≠ g2 → tbl !! g1 = Some c1 → tbl !! g2 = Some c2 → x ∈ c1 → x ∉ c2.

(** The same, decided on the listing of the table. *)
Definition groups_disjointb (tbl : gmap string (list string)) : bool :=
  forallb (λ e1 : string * list string,
    forallb (λ e2 : string * list string,
      bool_decide (e1.1 = e2.1) ||
      forallb (λ x, negb (bool_decide (x ∈ e2.2))) e1.2)
    (map_to_list tbl))
  (map_to_list tbl).

(** Number of rows whose cell at a column position holds one of [codes]. *)
Definition count_codes (i : nat) (codes : list string) (T : DataFrame) : nat :=
  length (filter (λ r, has_code i codes r = true) (rows T)).

(** The whiff-rate computation on one source table: swinging strikes over
    swings, no pitch-type or handedness selector. *)
Definition whiff_percentage (T : DataFrame) : result pyfloat :=
  num ← filter_engine T "all" "swinging strike" "all";
  denom ← filter_engine T "all" "swing" "all";
  ratio_percentage num denom.


Definition Qsum (l : list Q) : Q := foldr Qplus 0%Q l.

(** Sum of the magnitudes. *)
Definition Qabs_sum (l : list Q) : Q := foldr (λ x s, Qabs x + s)%Q 0%Q l.


(** The double a decimal literal denotes. *)
Definition double (q : Q) : Q := round_binary64 q.

(** A grouping of binary64 additions: the leaves are the numbers added, a
    node adds the sums of its two sides. *)
Inductive sum_tree : Type :=
| Leaf (q : Q)
| Node (l r : sum_tree).

Fixpoint tree_sum (t : sum_tree) : pyfloat :=
  match t with
  | Leaf q => Finite q
  | Node l r => fadd (tree_sum l) (tree_sum r)
  end.

Fixpoint tree_values (t : sum_tree) : list Q :=
  match t with
  | Leaf q => [q]
  | Node l r => tree_values l ++ tree_values r
  end.


(** The rational a finite machine double denotes. *)
Definition double_value (f : PrimFloat.float) : option Q :=
  match Prim2SF f with
  | S754_zero _ => Some 0%Q
  | S754_finite s m e =>
      Some (Qred ((if s then -1 else 1) * inject_Z (Zpos m) * 2 ^ e)%Q)
  | _ => None
  end.

(** The mean of the doubles nearest to the given fractions [a / b] (ints
    below 2^53), computed by the machine's binary64 unit: a running total
    from 0.0, divided by the count. *)
Definition machine_mean (fractions : list (Z * Z)) : option Q :=
  let quotient (ab : Z * Z) :=
    PrimFloat.div (PrimFloat.of_uint63 (Uint63.of_Z ab.1))
                  (PrimFloat.of_uint63 (Uint63.of_Z ab.2)) in
  double_value
    (PrimFloat.div
       (foldl (λ total ab, PrimFloat.add total (quotient ab)) PrimFloat.zero fractions)
       (PrimFloat.of_uint63 (Uint63.of_Z (Z.of_nat (length fractions))))).

(** The same mean in the model, on a column that holds the same doubles,
    each followed by a missing cell. *)
Definition model_mean (fractions : list (Z * Z)) : option Q :=
  match series_mean
          (flat_map (λ ab : Z * Z, [Num (double (inject_Z ab.1 / inject_Z ab.2)); NA])
                    fractions) with
  | Ok (Finite q) => Some q
  | _ => None
  end.

(** [(a / b) * 100] computed by the machine's binary64 unit, for ints below
    2^53. *)
Definition machine_percent (a b : Z) : option Q :=
  double_value
    (PrimFloat.mul
       (PrimFloat.div (PrimFloat.of_uint63 (Uint63.of_Z a))
                      (PrimFloat.of_uint63 (Uint63.of_Z b)))
       (PrimFloat.of_uint63 (Uint63.of_Z 100))).

(** The same value in the rational model. *)
Definition model_percent (a b : Z) : option Q :=
  match truediv a b with
  | Ok q =>
      match fmul_int q 100 with
      | Finite y => Some y
      | _ => None
      end
  | Raise _ => None
  end.

(** ** Tables used in the examples *)

Definition sample_row (pt desc hand : string) : Row :=
  [NA; Str pt; Str desc; NA; NA; Str hand].

Definition sample_table : DataFrame :=
  mkDataFrame
    ["game_date"; "pitch_type"; "description"; "events"; "release_speed"; "p_throws"]
    [ sample_row "FF" "swinging_strike" "L";
      sample_row "SL" "foul" "R";
      sample_row "CH" "ball" "R";
      [NA; NA; Str "called_strike"; NA; NA; Str "L"] ].

Definition outcome_table (codes : list string) : DataFrame :=
  mkDataFrame ["description"] (map (λ c, [Str c]) codes).

Definition whiff_table_hits : DataFrame :=
  outcome_table
    ["swinging_strike"; "ball"; "foul"; "swinging_strike"; "called_strike";
     "hit_into_play"; "ball"; "swinging_strike"; "foul"; "blocked_ball"].

Definition whiff_table_foul_tips : DataFrame :=
  outcome_table
    ["swinging_strike"; "ball"; "foul_tip"; "swinging_strike"; "ball";
     "foul_tip"; "ball"; "swinging_strike"; "foul_tip"; "ball"].

Definition xwoba_table : DataFrame :=
  mkDataFrame ["pitch_type"; "estimated_woba_using_speedangle"]
    [ [Str "FF"; Num (double (1 # 5))]; [Str "SL"; NA];
      [Str "FF"; Num (double (2 # 5))] ].

(** A provider answering every query with the same three pitches, in a
    table that carries the projected columns and two more. *)
Definition sample_raw : DataFrame :=
  mkDataFrame (projected_columns ++ ["spin_axis"; "zone"])
    [ [Str "2024-04-10"; Str "FF"; Str "foul"; NA; Num 95; Str "L";
       NA; NA; NA; NA; NA; NA; NA; NA; NA; NA; NA; NA; NA; NA; Num (3 # 10); NA;
       Num 200; Num 5];
      [Str "2024-04-11"; Str "SL"; Str "ball"; NA; Num 84; Str "R";
       NA; NA; NA; NA; NA; NA; NA; NA; NA; NA; NA; NA; NA; NA; NA; NA;
       Num 90; Num 13];
      [Str "2024-04-12"; Str "FF"; Str "swinging_strike"; NA; Num 97; Str "R";
       NA; NA; NA; NA; NA; NA; NA; NA; NA; NA; NA; NA; NA; NA; NA; NA;
       Num 210; Num 2] ].

Definition sample_lookup (last_name first_name : string) : result DataFrame :=
  Ok (mkDataFrame ["name_last"; "name_first"; "key_mlbam"]
        [[Str last_name; Str first_name; Num 702616]]).

Definition sample_statcast (start_date end_date : string) (playerid : Z)
    : result DataFrame :=
  Ok sample_raw.

(** ** The rest of the script *)

Definition pitch_colors_dict : gmap string string :=
  list_to_map [
    ("swinging_strike", "red");
    ("foul_tip", "red");
    ("swinging_strike_blocked", "red");
    ("ball", "blue");
    ("blocked_ball", "blue");
    ("hit_into_play", "green");
    ("called_strike", "orange");
    ("foul", "purple");
    ("foul_bunt", "purple");
    ("hit_by_pitch", "brown")
  ].

(** One group step of the filter taken on its own:
    [if sel in tbl: data = data[data[name].isin(tbl[sel])]]. *)
Definition group_step (tbl : gmap string (list string)) (name sel : string)
    (data : DataFrame) : result DataFrame :=
  if dict_contains tbl sel then
    s ← getitem data name;
    codes ← dict_getitem tbl sel;
    Ok (getitem_mask data (isin s codes))
  else Ok data.

(** A row passes the three selectors, read at the three column positions. *)
Definition passes (ip id ih : nat) (p d h : string) (r : Row) : Prop :=
  keeps ip (pitch_type_groups !! p) r = true ∧
  keeps id (descriptions !! d) r = true ∧
  keeps ih (handedness_codes h) r = true.

(** Every code of every outcome group has a colour, decided on the listing
    of the outcome table. *)
Definition codes_colouredb : bool :=
  forallb (λ e : string * list string,
    forallb (λ x, bool_decide (is_Some (pitch_colors_dict !! x))) e.2)
  (map_to_list descriptions).

(** The codes of one outcome group share one colour. *)
Definition one_colourb (codes : list string) : bool :=
  match codes with
  | [] => true
  | x :: rest =>
      forallb (λ y, bool_decide (pitch_colors_dict !! y = pitch_colors_dict !! x)) rest
  end.

Definition groups_one_colourb : bool :=
  forallb (λ e : string * list string,
    bool_decide (e.1 = "swing") || one_colourb e.2)
  (map_to_list descriptions).

(** A directory answer with no match, with two matches, and an event table
    that lacks most of the projected columns. *)
Definition lookup_no_match (last_name first_name : string) : result DataFrame :=
  Ok (mkDataFrame ["name_last"; "name_first"; "key_mlbam"] []).

Definition lookup_two_matches (last_name first_name : string) : result DataFrame :=
  Ok (mkDataFrame ["name_last"; "name_first"; "key_mlbam"]
        [[Str last_name; Str first_name; Num 607074];
         [Str last_name; Str first_name; Num 702616]]).

Definition short_statcast (start_date end_date : string) (playerid : Z)
    : result DataFrame :=
  Ok sample_table.

(** * Properties *)

Example dict_in_fastball : dict_contains pitch_type_groups "fastball" = true.
Proof. vm_compute. reflexivity. Qed.

Example dict_in_all : dict_contains descriptions "all" = false.
Proof. vm_compute. reflexivity. Qed.

(** ** Frames and masks *)

Lemma select_rows_map (f : Row → bool) (rs : list Row) :
  select_rows (map f rs) rs = filter (λ r, f r = true) rs.
Proof.
  induction rs as [|r rs IH]; simpl; [done|].
  destruct (f r) eqn:Hf.
  - rewrite filter_cons_True by done. by rewrite IH.
  - rewrite filter_cons_False by (rewrite Hf; done). done.
Qed.

Lemma isin_column (i : nat) (codes : list string) (rs : list Row) :
  isin (map (cell_at i) rs) codes = map (has_code i codes) rs.
Proof. unfold isin. rewrite map_map. done. Qed.

Lemma series_eq_column (i : nat) (h : string) (rs : list Row) :
  series_eq (map (cell_at i) rs) h = map (has_code i [h]) rs.
Proof.
  unfold series_eq. rewrite map_map. apply map_ext. intros r.
  unfold has_code. destruct (cell_at i r); try done.
  apply bool_decide_ext. by rewrite list_elem_of_singleton.
Qed.

Lemma dict_contains_lookup {V} (d : gmap string V) (key : string) :
  dict_contains d key = true ↔ is_Some (d !! key).
Proof. unfold dict_contains. rewrite bool_decide_eq_true. done. Qed.

Lemma dict_contains_None {V} (d : gmap string V) (key : string) :
  d !! key = None → dict_contains d key = false.
Proof.
  intros H. unfold dict_contains. apply bool_decide_eq_false.
  rewrite H. by intros [? ?].
Qed.

Lemma dict_contains_Some {V} (d : gmap string V) (key : string) (v : V) :
  d !! key = Some v → dict_contains d key = true.
Proof. intros H. apply dict_contains_lookup. by exists v. Qed.

Lemma restrict_columns i codes df : columns (restrict i codes df) = columns df.
Proof. by destruct codes. Qed.

Lemma restrict_rows i codes df :
  rows (restrict i codes df) = filter (λ r, keeps i codes r = true) (rows df).
Proof.
  destruct codes as [cs|]; simpl; [done|].
  induction (rows df) as [|r rs IH]; [done|].
  rewrite filter_cons_True by done. by rewrite <- IH.
Qed.

(** What the filtering step computes on a frame that has the three columns. *)
Lemma filter_engine_spec (T : DataFrame) (p d h : string) (ip id ih : nat) :
  column_index T "pitch_type" = Ok ip →
  column_index T "description" = Ok id →
  column_index T "p_throws" = Ok ih →
  filter_engine T p d h =
    Ok (restrict ih (handedness_codes h)
         (restrict id (descriptions !! d)
           (restrict ip (pitch_type_groups !! p) T))).
Proof.
  intros Hp Hd Hh. unfold filter_engine.
  assert (Hstep : ∀ (tbl : gmap string (list string)) sel name i (df : DataFrame),
    column_index df name = Ok i →
    (if dict_contains tbl sel then
       s ← getitem df name; codes ← dict_getitem tbl sel;
       Ok (getitem_mask df (isin s codes))
     else Ok df) = Ok (restrict i (tbl !! sel) df)).
  { intros tbl sel name i df Hi.
    destruct (tbl !! sel) as [cs|] eqn:Hsel.
    - rewrite (dict_contains_Some _ _ _ Hsel).
      unfold getitem, dict_getitem. rewrite Hi, Hsel. simpl.
      unfold getitem_mask. by rewrite isin_column, select_rows_map.
    - by rewrite (dict_contains_None _ _ Hsel). }
  rewrite (Hstep _ p _ _ _ Hp). simpl.
  set (T1 := restrict ip (pitch_type_groups !! p) T).
  assert (Hd1 : column_index T1 "description" = Ok id).
  { unfold column_index, T1. by rewrite restrict_columns. }
  rewrite (Hstep _ d _ _ _ Hd1). simpl.
  set (T2 := restrict id (descriptions !! d) T1).
  assert (Hh2 : column_index T2 "p_throws" = Ok ih).
  { unfold column_index, T2, T1. by rewrite !restrict_columns. }
  unfold handedness_codes.
  destruct (bool_decide (h ∈ ["L"; "R"])); simpl; [|done].
  unfold getitem. rewrite Hh2. simpl.
  unfold getitem_mask. by rewrite series_eq_column, select_rows_map.
Qed.

Lemma has_code_true i codes r :
  has_code i codes r = true ↔ ∃ x, raw_code i r = Some x ∧ x ∈ codes.
Proof.
  unfold has_code, raw_code. destruct (cell_at i r) as [|x|q].
  - split; [done|]. by intros (x & ? & _).
  - rewrite bool_decide_eq_true. split; [by exists x|]. by intros (y & [= <-] & ?).
  - split; [done|]. by intros (x & ? & _).
Qed.

Lemma has_code_false i codes r :
  has_code i codes r = false ↔ ∀ x, raw_code i r = Some x → x ∉ codes.
Proof.
  rewrite <- not_true_iff_false, has_code_true. split.
  - intros Hn x Hx Hin. apply Hn. by exists x.
  - intros Hall (x & Hx & Hin). by apply (Hall x).
Qed.

Lemma has_code_carries i codes r : has_code i codes r = true ↔ carries i codes r.
Proof.
  rewrite has_code_true. unfold carries. destruct (raw_code i r) as [x|].
  - split; [by intros (y & [= <-] & ?)|by exists x].
  - split; [by intros (y & ? & _)|done].
Qed.

Lemma keeps_kept i codes r : keeps i codes r = true ↔ kept i codes r.
Proof. destruct codes as [cs|]; [apply has_code_carries|done]. Qed.

Lemma restrict_rows_kept i codes df :
  rows (restrict i codes df) = filter (kept i codes) (rows df).
Proof. rewrite restrict_rows. apply list_filter_iff. intros r. apply keeps_kept. Qed.

Lemma restrict_selection i codes T : selection i codes T (restrict i (Some codes) T).
Proof.
  unfold selection. simpl. split_and!.
  - done.
  - apply list_filter_iff. intros r. apply has_code_carries.
  - apply sublist_filter.
  - intros r [Hr _]%list_elem_of_filter. by apply has_code_true.
  - intros r Hin Hout. apply has_code_false.
    destruct (has_code i codes r) eqn:Hc; [|done].
    exfalso. apply Hout. by apply list_elem_of_filter.
Qed.

Lemma no_group_all :
  pitch_type_groups !! "all" = None ∧ descriptions !! "all" = None ∧
  handedness_codes "all" = None.
Proof. by vm_compute. Qed.

Lemma restrict_None i T : restrict i None T = T.
Proof. done. Qed.

(** ** The filtering step *)

(** C1: with one recognized selector (a pitch-type group, an outcome group,
    or a handedness code) the filter returns exactly the rows of the table
    that carry a code of the selected set, each as often as it occurs and in
    the order of the table: a sub-sequence of the rows, every kept row
    carrying a code of the set and every dropped row not; with several
    selectors the result is exactly the rows that every dimension keeps, that
    is, the intersection of the three single-selector results. *)
Theorem filter_engine_selects (T : DataFrame) (ip id ih : nat) :
  column_index T "pitch_type" = Ok ip →
  column_index T "description" = Ok id →
  column_index T "p_throws" = Ok ih →
  (∀ g codes, pitch_type_groups !! g = Some codes →
     ∃ T', filter_engine T g "all" "all" = Ok T' ∧ selection ip codes T T') ∧
  (∀ g codes, descriptions !! g = Some codes →
     ∃ T', filter_engine T "all" g "all" = Ok T' ∧ selection id codes T T') ∧
  (∀ h, h ∈ ["L"; "R"] →
     ∃ T', filter_engine T "all" "all" h = Ok T' ∧ selection ih [h] T T') ∧
  (∀ p d h, ∃ T' Tp Td Th,
     filter_engine T p d h = Ok T' ∧
     filter_engine T p "all" "all" = Ok Tp ∧
     filter_engine T "all" d "all" = Ok Td ∧
     filter_engine T "all" "all" h = Ok Th ∧
     columns T' = columns T ∧
     rows Tp = filter (kept ip (pitch_type_groups !! p)) (rows T) ∧
     rows Td = filter (kept id (descriptions !! d)) (rows T) ∧
     rows Th = filter (kept ih (handedness_codes h)) (rows T) ∧
     rows T' = filter (λ r, kept ip (pitch_type_groups !! p) r ∧
                            kept id (descriptions !! d) r ∧
                            kept ih (handedness_codes h) r) (rows T) ∧
     sublist (rows T') (rows T) ∧
     ∀ r, r ∈ rows T' ↔ r ∈ rows Tp ∧ r ∈ rows Td ∧ r ∈ rows Th).
Proof.
  intros Hp Hd Hh.
  pose proof (filter_engine_spec T) as Hspec.
  destruct no_group_all as (Hpa & Hda & Hha).
  split_and!.
  - intros g codes Hg. eexists. split.
    + rewrite (Hspec _ _ _ _ _ _ Hp Hd Hh), Hg, Hda, Hha. reflexivity.
    + apply restrict_selection.
  - intros g codes Hg. eexists. split.
    + rewrite (Hspec _ _ _ _ _ _ Hp Hd Hh), Hg, Hpa, Hha. reflexivity.
    + apply restrict_selection.
  - intros h Hin. eexists. split.
    + rewrite (Hspec _ _ _ _ _ _ Hp Hd Hh), Hpa, Hda.
      unfold handedness_codes. rewrite bool_decide_eq_true_2 by done. reflexivity.
    + apply restrict_selection.
  - intros p d h. do 4 eexists. split_and!.
    + apply (Hspec _ _ _ _ _ _ Hp Hd Hh).
    + rewrite (Hspec _ _ _ _ _ _ Hp Hd Hh), Hda, Hha. reflexivity.
    + rewrite (Hspec _ _ _ _ _ _ Hp Hd Hh), Hpa, Hha. reflexivity.
    + rewrite (Hspec _ _ _ _ _ _ Hp Hd Hh), Hpa, Hda. reflexivity.
    + by rewrite !restrict_columns.
    + rewrite !restrict_None. apply restrict_rows_kept.
    + rewrite !restrict_None. apply restrict_rows_kept.
    + rewrite !restrict_None. apply restrict_rows_kept.
    + rewrite !restrict_rows_kept, !list_filter_filter.
      apply list_filter_iff. tauto.
    + rewrite !restrict_rows. etrans; [apply sublist_filter|].
      etrans; apply sublist_filter.
    + intros r. rewrite !restrict_None, !restrict_rows, !list_elem_of_filter.
      tauto.
Qed.

Lemma filter_engine_selects_witness :
  ∃ T', filter_engine sample_table "fastball" "all" "all" = Ok T' ∧
        selection 1 ["FF"; "SI"; "FC"] sample_table T'.
Proof.
  pose proof (filter_engine_selects sample_table 1 2 5 eq_refl eq_refl eq_refl)
    as (H & _).
  apply (H "fastball"). reflexivity.
Defined.

(** Equal rows are kept as often as they occur. *)
Example filter_keeps_repeated_rows :
  len <$> filter_engine
            (mkDataFrame (columns sample_table)
               [ sample_row "FF" "foul" "R"; sample_row "SL" "ball" "R";
                 sample_row "FF" "foul" "R"; sample_row "FF" "foul" "R" ])
            "fastball" "foul" "R"
  = Ok 3.
Proof. vm_compute. reflexivity. Qed.

Example filter_fastball_left :
  rows <$> filter_engine sample_table "fastball" "swing" "L"
  = Ok [sample_row "FF" "swinging_strike" "L"].
Proof. vm_compute. reflexivity. Qed.

(** C2: with the sentinel in all three dimensions the filter returns the
    table it was given. *)
Theorem filter_engine_all_identity (T : DataFrame) :
  filter_engine T "all" "all" "all" = Ok T.
Proof.
  destruct no_group_all as (Hp & Hd & Hh).
  unfold filter_engine.
  rewrite (dict_contains_None _ _ Hp). cbn [mbind result_bind].
  rewrite (dict_contains_None _ _ Hd). cbn [mbind result_bind].
  unfold handedness_codes in Hh.
  destruct (bool_decide ("all" ∈ ["L"; "R"])); [discriminate|reflexivity].
Qed.

Lemma select_rows_sublist (mask : list bool) (rs : list Row) :
  sublist (select_rows mask rs) rs.
Proof.
  revert mask. induction rs as [|r rs IH]; intros [|b mask]; simpl;
    try apply sublist_nil_l.
  destruct b; [apply sublist_skip|apply sublist_cons]; apply IH.
Qed.

Lemma filter_engine_handedness (T : DataFrame) (p d h : string) :
  filter_engine T p d h = filter_engine T p d "all" ≫= handedness_step h.
Proof.
  unfold filter_engine, handedness_step.
  destruct (if dict_contains pitch_type_groups p then _ else _) as [T1|e]; simpl; [|done].
  destruct (if dict_contains descriptions d then _ else _) as [T2|e]; simpl; [|done].
  by destruct (bool_decide (h ∈ ["L"; "R"])); simpl; destruct (getitem T2 "p_throws").
Qed.

(** Every step keeps the column labels and returns a sub-sequence of rows. *)
Lemma group_step_frame (tbl : gmap string (list string)) (sel name : string)
    (df df' : DataFrame) :
  (if dict_contains tbl sel then
     s ← getitem df name; codes ← dict_getitem tbl sel;
     Ok (getitem_mask df (isin s codes))
   else Ok df) = Ok df' →
  columns df' = columns df ∧ sublist (rows df') (rows df).
Proof.
  destruct (dict_contains tbl sel); [|by intros [= <-]].
  destruct (getitem df name) as [s|]; simpl; [|done].
  destruct (dict_getitem tbl sel) as [codes|]; simpl; [|done].
  intros [= <-]. split; [done|apply select_rows_sublist].
Qed.

Lemma handedness_step_frame (h : string) (df df' : DataFrame) :
  handedness_step h df = Ok df' →
  columns df' = columns df ∧ sublist (rows df') (rows df).
Proof.
  unfold handedness_step.
  destruct (bool_decide _); [|by intros [= <-]].
  destruct (getitem df "p_throws") as [s|]; simpl; [|done].
  intros [= <-]. split; [done|apply select_rows_sublist].
Qed.

Lemma filter_engine_frame (T T' : DataFrame) (p d h : string) :
  filter_engine T p d h = Ok T' →
  columns T' = columns T ∧ sublist (rows T') (rows T).
Proof.
  unfold filter_engine.
  destruct (if dict_contains pitch_type_groups p then _ else _) as [T1|e] eqn:H1;
    simpl; [|done].
  destruct (if dict_contains descriptions d then _ else _) as [T2|e] eqn:H2;
    simpl; [|done].
  destruct (if bool_decide _ then _ else _) as [T3|e] eqn:H3; simpl; [|done].
  intros [= <-].
  apply group_step_frame in H1 as [C1 S1].
  apply group_step_frame in H2 as [C2 S2].
  apply (handedness_step_frame h) in H3 as [C3 S3].
  split; [congruence|]. by etrans; [|etrans].
Qed.

(** C5: a selector that is not a key of the table of its dimension is
    ignored: the dimension is left unfiltered exactly as with the sentinel,
    and the step raises nothing. *)
Theorem unrecognized_selector_ignored (T : DataFrame) (p d h : string) :
  (pitch_type_groups !! p = None →
     filter_engine T p d h = filter_engine T "all" d h) ∧
  (descriptions !! d = None →
     filter_engine T p d h = filter_engine T p "all" h) ∧
  (h ∉ ["L"; "R"] →
     filter_engine T p d h = filter_engine T p d "all") ∧
  (pitch_type_groups !! p = None → descriptions !! d = None → h ∉ ["L"; "R"] →
     filter_engine T p d h = Ok T).
Proof.
  assert (Hp : pitch_type_groups !! p = None →
               filter_engine T p d h = filter_engine T "all" d h).
  { intros Hnone. unfold filter_engine.
    by rewrite (dict_contains_None _ _ Hnone). }
  assert (Hd : ∀ p', descriptions !! d = None →
               filter_engine T p' d h = filter_engine T p' "all" h).
  { intros p' Hnone. unfold filter_engine.
    by rewrite (dict_contains_None _ _ Hnone). }
  assert (Hh : ∀ p' d', h ∉ ["L"; "R"] →
               filter_engine T p' d' h = filter_engine T p' d' "all").
  { intros p' d' Hnot. unfold filter_engine.
    by rewrite (bool_decide_eq_false_2 _ Hnot). }
  split_and!; [done|by apply Hd|by apply Hh|].
  intros H1 H2 H3. rewrite Hp, Hd, Hh by done. reflexivity.
Qed.

Lemma unrecognized_selector_ignored_witness :
  filter_engine sample_table "curveball" "swing" "L"
  = filter_engine sample_table "all" "swing" "L"
  ∧ filter_engine sample_table "curveball" "whiff" "left" = Ok sample_table.
Proof.
  pose proof (unrecognized_selector_ignored sample_table "curveball" "swing" "L")
    as (H1 & _).
  pose proof (unrecognized_selector_ignored sample_table "curveball" "whiff" "left")
    as (_ & _ & _ & H4).
  split.
  - apply H1. vm_compute. reflexivity.
  - apply H4; [by vm_compute|by vm_compute|].
    intros Hin. by repeat (apply elem_of_cons in Hin as [Hin|Hin]; [done|]);
      apply elem_of_nil in Hin.
Defined.

(** C6: the handedness selector filters exactly when it is the literal "L"
    or "R", keeping the rows whose [p_throws] cell equals it; any other
    value, the sentinel included, leaves the dimension unfiltered. *)
Theorem handedness_selector (T : DataFrame) (p d h : string) :
  (h ∈ ["L"; "R"] →
     ∀ ih T0, column_index T "p_throws" = Ok ih →
       filter_engine T p d "all" = Ok T0 →
       ∃ T', filter_engine T p d h = Ok T' ∧
             columns T' = columns T0 ∧
             rows T' = filter (λ r, raw_code ih r = Some h) (rows T0)) ∧
  (h ∉ ["L"; "R"] → filter_engine T p d h = filter_engine T p d "all").
Proof.
  split.
  - intros Hin ih T0 Hih H0.
    rewrite filter_engine_handedness, H0. simpl.
    unfold handedness_step. rewrite (bool_decide_eq_true_2 _ Hin).
    apply filter_engine_frame in H0 as [Hcols _].
    unfold getitem, column_index in *. rewrite Hcols.
    destruct (index_of "p_throws" (columns T)) as [i|]; [|done].
    injection Hih as ->. simpl. eexists. split; [reflexivity|].
    split; [done|]. simpl.
    rewrite series_eq_column, select_rows_map.
    apply list_filter_iff. intros r. rewrite has_code_true. split.
    + intros (x & Hx & ->%list_elem_of_singleton). done.
    + intros Hr. exists h. split; [done|]. by apply list_elem_of_singleton.
  - intros Hnot. unfold filter_engine.
    by rewrite (bool_decide_eq_false_2 _ Hnot).
Qed.

Lemma handedness_selector_witness :
  (∃ T', filter_engine sample_table "all" "all" "R" = Ok T' ∧
         columns T' = columns sample_table ∧
         rows T' = [sample_row "SL" "foul" "R"; sample_row "CH" "ball" "R"]) ∧
  filter_engine sample_table "all" "all" "r" = filter_engine sample_table "all" "all" "all".
Proof.
  split.
  - pose proof (handedness_selector sample_table "all" "all" "R") as (H & _).
    apply (H ltac:(by right; left) 5 sample_table); reflexivity.
  - pose proof (handedness_selector sample_table "all" "all" "r") as (_ & H).
    apply H. intros Hin.
    by repeat (apply elem_of_cons in Hin as [Hin|Hin]; [done|]);
      apply elem_of_nil in Hin.
Defined.

(** ** The category tables *)

Lemma groups_disjointb_sound tbl : groups_disjointb tbl = true → groups_disjoint tbl.
Proof.
  unfold groups_disjointb. rewrite forallb_forall.
  intros Hall g1 g2 c1 c2 x Hne H1 H2 Hx1 Hx2.
  apply elem_of_map_to_list, list_elem_of_In in H1, H2.
  specialize (Hall _ H1). rewrite forallb_forall in Hall.
  specialize (Hall _ H2). simpl in Hall.
  apply orb_true_iff in Hall as [Heq|Hall].
  - by apply bool_decide_eq_true in Heq.
  - rewrite forallb_forall in Hall.
    apply list_elem_of_In in Hx1. specialize (Hall _ Hx1).
    apply negb_true_iff, bool_decide_eq_false in Hall. done.
Qed.

(** C8, as the code has it: the pitch-type groups are pairwise disjoint; the
    outcome groups other than "swing" are pairwise disjoint, and "swing" is
    made of the codes of "in play", "swinging strike" and "foul"; "all" is a
    group name in neither table. *)
Theorem category_tables_disjoint_apart_from_swing :
  groups_disjoint pitch_type_groups ∧
  groups_disjoint (delete "swing" descriptions) ∧
  (∃ ip ss fl sw,
     descriptions !! "in play" = Some ip ∧
     descriptions !! "swinging strike" = Some ss ∧
     descriptions !! "foul" = Some fl ∧
     descriptions !! "swing" = Some sw ∧
     sw = ip ++ ss ++ fl) ∧
  pitch_type_groups !! "all" = None ∧
  descriptions !! "all" = None.
Proof.
  split_and!.
  - apply groups_disjointb_sound. vm_compute. reflexivity.
  - apply groups_disjointb_sound. vm_compute. reflexivity.
  - do 4 eexists. split_and!; vm_compute; reflexivity.
  - vm_compute. reflexivity.
  - vm_compute. reflexivity.
Qed.

(** The code "foul" belongs to the group "foul" and to the group "swing":
    the outcome table is not made of disjoint groups. *)
Lemma descriptions_groups_overlap : ¬ groups_disjoint descriptions.
Proof.
  intros H.
  apply (H "foul" "swing" ["foul"]
           ["hit_into_play"; "swinging_strike"; "swinging_strike_blocked";
            "foul_tip"; "foul"] "foul").
  - done.
  - vm_compute. reflexivity.
  - vm_compute. reflexivity.
  - by left.
  - do 4 right. by left.
Qed.

(** ** The projection *)

Lemma index_of_elem (name : string) (cols : list string) :
  name ∈ cols → is_Some (index_of name cols).
Proof.
  induction cols as [|c cols IH]; [by intros ?%elem_of_nil|].
  intros Hin. simpl. destruct (decide (c = name)); [by eexists|].
  apply elem_of_cons in Hin as [->|Hin]; [done|].
  destruct (IH Hin) as [i ->]. by eexists.
Qed.

Lemma column_indices_total (df : DataFrame) (names : list string) :
  names ⊆ columns df → ∃ idx, column_indices df names = Ok idx.
Proof.
  induction names as [|n names IH]; intros Hsub; [by eexists|].
  simpl. unfold column_index.
  destruct (index_of_elem n (columns df)) as [i ->]; [set_solver|].
  destruct IH as [idx ->]; [set_solver|]. by eexists.
Qed.

Lemma getitem_columns_labels (df data : DataFrame) (names : list string) :
  getitem_columns df names = Ok data → columns data = names.
Proof.
  unfold getitem_columns.
  destruct (column_indices df names); simpl; [|done]. by intros [= <-].
Qed.

Section ProviderFacts.
Variable playerid_lookup : string → string → result DataFrame.
Variable statcast_batter : string → string → Z → result DataFrame.

(** C9: whatever the selectors, a table returned by [player_data_filtered]
    has exactly the 22 projected column labels, in the order of the list;
    and it is returned whenever the provider answers with a table that has
    these columns, with a sub-sequence of the rows of the projected table. *)
Theorem player_data_filtered_columns
    (start_date end_date last_name first_name p d h : string) :
  length projected_columns = 22 ∧
  (∀ T', player_data_filtered playerid_lookup statcast_batter
           start_date end_date last_name first_name p d h = Ok T' →
         columns T' = projected_columns) ∧
  (∀ playerid raw,
     player_id playerid_lookup last_name first_name = Ok playerid →
     statcast_batter start_date end_date playerid = Ok raw →
     projected_columns ⊆ columns raw →
     ∃ data T',
       getitem_columns raw projected_columns = Ok data ∧
       player_data_filtered playerid_lookup statcast_batter
         start_date end_date last_name first_name p d h = Ok T' ∧
       columns T' = projected_columns ∧
       sublist (rows T') (rows data)).
Proof.
  split_and!.
  - reflexivity.
  - intros T'. unfold player_data_filtered.
    destruct (player_id _ _ _) as [pid|]; simpl; [|done].
    destruct (statcast_batter _ _ _) as [raw|]; simpl; [|done].
    destruct (getitem_columns raw projected_columns) as [data|] eqn:Hproj;
      simpl; [|done].
    intros [Hcols _]%filter_engine_frame.
    rewrite Hcols. by apply getitem_columns_labels in Hproj.
  - intros pid raw Hpid Hraw Hsub.
    unfold player_data_filtered. rewrite Hpid. simpl. rewrite Hraw. simpl.
    unfold getitem_columns.
    destruct (column_indices_total raw projected_columns Hsub) as [idx ->].
    simpl. set (data := mkDataFrame _ _).
    assert (Hfe : ∃ T', filter_engine data p d h = Ok T').
    { eexists. by apply (filter_engine_spec data p d h 1 2 5). }
    destruct Hfe as [T' HT']. exists data, T'.
    split; [done|]. split; [done|].
    by apply filter_engine_frame in HT' as [-> ?].
Qed.
End ProviderFacts.

(** ** Rounding to the nearest double *)

Local Open Scope Q_scope.

Lemma round_half_even_floor (x : Q) :
  round_half_even x = Qfloor x ∨ round_half_even x = (Qfloor x + 1)%Z.
Proof.
  unfold round_half_even.
  destruct (Qcompare _ _); [destruct (Z.even _)|..]; auto.
Qed.

(** Rounding to an integer never crosses an integer. *)
Lemma round_half_even_le (x : Q) (N : Z) :
  x <= inject_Z N → (round_half_even x <= N)%Z.
Proof.
  intros Hx.
  pose proof (Qfloor_le x) as Hfl.
  assert (Hf : (Qfloor x <= N)%Z).
  { rewrite <- (Qfloor_Z N). by apply Qfloor_resp_le. }
  destruct (Z.eq_dec (Qfloor x) N) as [Heq|Hne].
  - assert (Hx0 : x - inject_Z (Qfloor x) == 0).
    { rewrite Heq in *. apply Qle_antisym; lra. }
    unfold round_half_even.
    assert (Hc : Qcompare (x - inject_Z (Qfloor x)) (1 # 2) = Lt).
    { apply Qlt_alt. rewrite Hx0. reflexivity. }
    rewrite Hc. lia.
  - destruct (round_half_even_floor x) as [-> | ->]; lia.
Qed.

Lemma round_half_even_ge (x : Q) (N : Z) :
  inject_Z N <= x → (N <= round_half_even x)%Z.
Proof.
  intros Hx.
  assert (Hf : (N <= Qfloor x)%Z).
  { rewrite <- (Qfloor_Z N). by apply Qfloor_resp_le. }
  destruct (round_half_even_floor x) as [-> | ->]; lia.
Qed.

Lemma round_half_even_integer (N : Z) : round_half_even (inject_Z N) = N.
Proof.
  apply Z.le_antisymm.
  - apply round_half_even_le. apply Qle_refl.
  - apply round_half_even_ge. apply Qle_refl.
Qed.

(** The rounded integer is within one half of the argument. *)
Lemma round_half_even_near (x : Q) :
  Qabs (inject_Z (round_half_even x) - x) <= 1 # 2.
Proof.
  pose proof (Qfloor_le x) as Hlo. pose proof (Qlt_floor x) as Hhi.
  rewrite inject_Z_plus in Hhi. change (inject_Z 1) with 1 in Hhi.
  apply Qabs_Qle_condition. unfold round_half_even.
  destruct (Qcompare_spec (x - inject_Z (Qfloor x)) (1 # 2)) as [He|Hl|Hg].
  - destruct (Z.even (Qfloor x)); rewrite ?inject_Z_plus;
      change (inject_Z 1) with 1; split; lra.
  - split; lra.
  - rewrite inject_Z_plus. change (inject_Z 1) with 1. split; lra.
Qed.

Lemma two_power_pos (k : Z) : 0 < 2 ^ k.
Proof. by apply Qpower_0_lt. Qed.

(** [ilog2] brackets a positive rational between consecutive powers of two. *)
Lemma ilog2_spec (x : Q) :
  0 < x → 2 ^ ilog2 x <= x ∧ x < 2 ^ (ilog2 x + 1).
Proof.
  intros Hx. destruct x as [a b].
  assert (Ha : (0 < a)%Z).
  { unfold Qlt in Hx. simpl in Hx. lia. }
  unfold ilog2. cbn [Qnum Qden].
  set (la := Z.log2 a). set (lb := Z.log2 (Z.pos b)).
  pose proof (Z.log2_spec a Ha) as [Ha1 Ha2]. fold la in Ha1, Ha2.
  pose proof (Z.log2_spec (Z.pos b) eq_refl) as [Hb1 Hb2]. fold lb in Hb1, Hb2.
  pose proof (Z.log2_nonneg a) as Hla. fold la in Hla.
  pose proof (Z.log2_nonneg (Z.pos b)) as Hlb. fold lb in Hlb.
  assert (Hpa : ∀ n, (0 <= n)%Z → 2 ^ n == inject_Z (2 ^ n)).
  { intros n Hn. by rewrite Zpower_Qpower. }
  assert (Hnz : ¬ 2 == 0) by done.
  assert (Hb0 : 0 < inject_Z (Z.pos b)) by done.
  assert (Hq : a # b == inject_Z a / inject_Z (Z.pos b)) by apply Qmake_Qdiv.
  assert (Hlow : 2 ^ (la - lb - 1) <= a # b).
  { rewrite Hq. apply Qle_shift_div_l; [done|].
    replace (la - lb - 1)%Z with (la + - (lb + 1))%Z by lia.
    rewrite Qpower_plus, Qpower_opp by done.
    rewrite !Hpa by lia.
    assert (H2 : 0 < inject_Z (2 ^ (lb + 1))).
    { rewrite <- Hpa by lia. apply two_power_pos. }
    apply Qle_trans with (inject_Z (2 ^ la) * / inject_Z (2 ^ (lb + 1)) * inject_Z (2 ^ (lb + 1))).
    - apply Qmult_le_l.
      + apply Qmult_lt_0_compat; [rewrite <- Hpa by lia; apply two_power_pos|].
        by apply Qinv_lt_0_compat.
      + rewrite <- Zle_Qle. unfold Z.succ in Hb2. lia.
    - rewrite <- Qmult_assoc, (Qmult_comm (/ _)), Qmult_inv_r, Qmult_1_r.
      + by rewrite <- Zle_Qle.
      + intros E. rewrite E in H2. by apply Qlt_irrefl in H2. }
  assert (Hupp : a # b < 2 ^ (la - lb + 1)).
  { rewrite Hq. apply Qlt_shift_div_r; [done|].
    replace (la - lb + 1)%Z with ((la + 1) + - lb)%Z by lia.
    rewrite Qpower_plus, Qpower_opp by done.
    rewrite !Hpa by lia.
    assert (H2 : 0 < inject_Z (2 ^ lb)).
    { rewrite <- Hpa by lia. apply two_power_pos. }
    apply Qlt_le_trans with (inject_Z (2 ^ (la + 1)) * / inject_Z (2 ^ lb) * inject_Z (2 ^ lb)).
    - rewrite <- Qmult_assoc, (Qmult_comm (/ _)), Qmult_inv_r, Qmult_1_r.
      + rewrite <- Zlt_Qlt. unfold Z.succ in Ha2. lia.
      + intros E. rewrite E in H2. by apply Qlt_irrefl in H2.
    - apply Qmult_le_l.
      + apply Qmult_lt_0_compat; [rewrite <- Hpa by lia; apply two_power_pos|].
        by apply Qinv_lt_0_compat.
      + by rewrite <- Zle_Qle. }
  destruct (Qle_bool (2 ^ (la - lb)) (a # b)) eqn:Hc.
  - apply Qle_bool_iff in Hc. split; [exact Hc|exact Hupp].
  - split; [exact Hlow|].
    replace (la - lb - 1 + 1)%Z with (la - lb)%Z by lia.
    apply Qnot_le_lt. intros Hle. apply Qle_bool_iff in Hle. congruence.
Qed.

Lemma ulp_exponent_pos (x : Q) :
  0 < x → ulp_exponent x = Z.max (ilog2 x - 52) (-1074).
Proof.
  intros Hx. unfold ulp_exponent. destruct x as [a b].
  assert (Ha : (0 < a)%Z) by (unfold Qlt in Hx; simpl in Hx; lia).
  unfold Qabs. by rewrite Z.abs_eq by lia.
Qed.

(** The rounded value written on the grid of its own exponent. *)
Lemma round_binary64_grid (x : Q) :
  ¬ x == 0 →
  round_binary64 x
  == inject_Z (round_half_even (x / 2 ^ ulp_exponent x)) * 2 ^ ulp_exponent x.
Proof.
  intros Hx. unfold round_binary64.
  destruct (Qeq_bool x 0) eqn:E.
  - by apply Qeq_bool_iff in E.
  - apply Qred_correct.
Qed.

Lemma round_binary64_zero (x : Q) : x == 0 → round_binary64 x = 0.
Proof.
  intros Hx. unfold round_binary64.
  by rewrite (proj2 (Qeq_bool_iff x 0) Hx).
Qed.

(** Rounding keeps the sign of a non-negative exact result. *)
Lemma round_binary64_nonneg (x : Q) : 0 <= x → 0 <= round_binary64 x.
Proof.
  intros Hx. destruct (Qeq_dec x 0) as [E|E].
  - by rewrite round_binary64_zero.
  - rewrite round_binary64_grid by done.
    apply Qmult_le_0_compat; [|apply Qlt_le_weak, two_power_pos].
    change 0 with (inject_Z 0). rewrite <- Zle_Qle.
    apply round_half_even_ge. change (inject_Z 0) with 0.
    apply Qle_shift_div_l; [apply two_power_pos|]. by rewrite Qmult_0_l.
Qed.

(** Rounding never crosses a double: an exact result below [M * 2^K], with
    [M] a 53-bit significand and [K] an exponent of the format, rounds to a
    value that is still below it. *)
Lemma round_binary64_le_double (x : Q) (M K : Z) :
  (0 < M < 2 ^ 53)%Z → (-1074 <= K)%Z →
  0 <= x → x <= inject_Z M * 2 ^ K →
  round_binary64 x <= inject_Z M * 2 ^ K.
Proof.
  intros [HM0 HM] HK Hx0 Hxc.
  destruct (Qeq_dec x 0) as [E|E].
  { rewrite round_binary64_zero by done.
    apply Qmult_le_0_compat; [|apply Qlt_le_weak, two_power_pos].
    change 0 with (inject_Z 0). rewrite <- Zle_Qle. lia. }
  assert (Hx : 0 < x).
  { apply Qle_lt_or_eq in Hx0 as [?|Heq]; [done|]. by symmetry in Heq. }
  rewrite round_binary64_grid by done.
  rewrite (ulp_exponent_pos x Hx).
  set (k := Z.max (ilog2 x - 52) (-1074)).
  assert (Hk : (k <= K)%Z).
  { destruct (ilog2_spec x Hx) as [Hlo _].
    assert (Hlt : 2 ^ ilog2 x < 2 ^ (53 + K)).
    { eapply Qle_lt_trans; [exact Hlo|]. eapply Qle_lt_trans; [exact Hxc|].
      rewrite Qpower_plus by done. apply Qmult_lt_r; [apply two_power_pos|].
      apply Qlt_le_trans with (inject_Z (2 ^ 53)); [by rewrite <- Zlt_Qlt|].
      rewrite (Zpower_Qpower 2 53) by lia. apply Qle_refl. }
    apply Qpower_lt_compat_l_inv in Hlt; [|done]. lia. }
  assert (Hgrid : inject_Z M * 2 ^ K == inject_Z (M * 2 ^ (K - k)) * 2 ^ k).
  { rewrite inject_Z_mult, Zpower_Qpower by lia.
    change (inject_Z 2) with 2.
    rewrite <- Qmult_assoc, <- Qpower_plus by done.
    by replace (K - k + k)%Z with K by lia. }
  rewrite Hgrid. apply Qmult_le_r; [apply two_power_pos|].
  rewrite <- Zle_Qle. apply round_half_even_le.
  apply Qle_shift_div_r; [apply two_power_pos|]. by rewrite <- Hgrid.
Qed.

Lemma round_binary64_le_integer (x : Q) (N : Z) :
  (0 < N < 2 ^ 53)%Z → 0 <= x → x <= inject_Z N → round_binary64 x <= inject_Z N.
Proof.
  intros HN Hx0 Hx.
  assert (E : inject_Z N == inject_Z N * 2 ^ 0) by (simpl; ring).
  rewrite E. apply round_binary64_le_double; [done|lia|done|by rewrite <- E].
Qed.

(** Rounding moves an exact result below [2^e] by at most half a unit in
    the last place of that binade. *)
Lemma round_binary64_error (x : Q) (e : Z) :
  (-1021 <= e)%Z → 0 <= x → x < 2 ^ e →
  Qabs (round_binary64 x - x) <= 2 ^ (e - 54).
Proof.
  intros He Hx0 Hxe.
  destruct (Qeq_dec x 0) as [E|E].
  { rewrite round_binary64_zero by done. rewrite E.
    apply Qlt_le_weak, two_power_pos. }
  assert (Hx : 0 < x).
  { apply Qle_lt_or_eq in Hx0 as [?|Heq]; [done|]. by symmetry in Heq. }
  rewrite round_binary64_grid by done.
  rewrite (ulp_exponent_pos x Hx).
  set (k := Z.max (ilog2 x - 52) (-1074)).
  assert (Hk : (k <= e - 53)%Z).
  { destruct (ilog2_spec x Hx) as [Hlo _].
    assert (Hlt : 2 ^ ilog2 x < 2 ^ e) by (eapply Qle_lt_trans; [exact Hlo|exact Hxe]).
    apply Qpower_lt_compat_l_inv in Hlt; [|done]. lia. }
  pose proof (two_power_pos k) as Hp.
  pose proof (round_half_even_near (x / 2 ^ k)) as Hnear.
  set (m := inject_Z (round_half_even (x / 2 ^ k))) in *.
  set (t := x / 2 ^ k) in *.
  assert (Hxt : x == t * 2 ^ k).
  { unfold t. field. intros E0. rewrite E0 in Hp. by apply Qlt_irrefl in Hp. }
  assert (Hhalf : 2 ^ (e - 54) == (1 # 2) * 2 ^ (e - 53)).
  { replace (e - 54)%Z with (-1 + (e - 53))%Z by lia.
    by rewrite Qpower_plus. }
  assert (Hpk : 2 ^ k <= 2 ^ (e - 53)) by (apply Qpower_le_compat_l; [lia|done]).
  apply Qabs_Qle_condition in Hnear as [Hn1 Hn2].
  apply Qabs_Qle_condition. rewrite Hhalf.
  set (p := 2 ^ k) in *. set (P := 2 ^ (e - 53)) in *.
  assert (H1 : (m - t) * p <= (1 # 2) * p) by (apply Qmult_le_compat_r; lra).
  assert (H2 : (- (1 # 2)) * p <= (m - t) * p) by (apply Qmult_le_compat_r; lra).
  assert (H3 : (1 # 2) * p <= (1 # 2) * P) by lra.
  rewrite Hxt.
  assert (Heq : m * p - t * p == (m - t) * p) by ring.
  rewrite Heq. split; lra.
Qed.

(** A result of magnitude at most 100 is far from overflow. *)
Lemma to_float_finite (x : Q) :
  0 <= round_binary64 x → round_binary64 x <= 100 →
  to_float x = Finite (round_binary64 x).
Proof.
  intros H0 H100. unfold to_float.
  destruct (Qle_bool (2 ^ 1024) (Qabs (round_binary64 x))) eqn:E; [|done].
  apply Qle_bool_iff in E. rewrite Qabs_pos in E by done.
  assert (Hbig : 100 < 2 ^ 1024) by (by vm_compute).
  exfalso. apply (Qlt_irrefl 100). eapply Qlt_le_trans; [exact Hbig|].
  eapply Qle_trans; [exact E|exact H100].
Qed.

(** The three float steps of the ratio-percentage, on a quotient in [0, 1]:
    each result with its range and its distance from the exact value. *)
Lemma truediv_unit_interval (n d : Z) :
  (0 <= n <= d)%Z → (0 < d)%Z →
  ∃ q, truediv n d = Ok (Finite q) ∧ 0 <= q ∧ q <= 1 ∧
       Qabs (q - inject_Z n / inject_Z d) <= 2 ^ (-53).
Proof.
  intros Hn Hd. unfold truediv.
  destruct (decide (d = 0%Z)) as [->|_]; [lia|].
  set (x := inject_Z n / inject_Z d).
  assert (Hd' : 0 < inject_Z d) by (change 0 with (inject_Z 0); rewrite <- Zlt_Qlt; lia).
  assert (Hx0 : 0 <= x).
  { apply Qle_shift_div_l; [done|]. rewrite Qmult_0_l.
    change 0 with (inject_Z 0). rewrite <- Zle_Qle. lia. }
  assert (Hx1 : x <= inject_Z 1).
  { apply Qle_shift_div_r; [done|]. rewrite Qmult_1_l, <- Zle_Qle. lia. }
  pose proof (round_binary64_nonneg x Hx0) as H0.
  pose proof (round_binary64_le_integer x 1 ltac:(lia) Hx0 Hx1) as H1.
  rewrite to_float_finite; [|done|eapply Qle_trans; [exact H1|done]].
  eexists. split; [reflexivity|]. split_and!; [done|done|].
  apply (round_binary64_error x 1); [lia|done|].
  eapply Qle_lt_trans; [exact Hx1|done].
Qed.

Lemma fmul_int_percent (q : Q) :
  0 <= q → q <= 1 →
  ∃ y, fmul_int (Finite q) 100 = Finite y ∧ 0 <= y ∧ y <= 100 ∧
       Qabs (y - q * 100) <= 2 ^ (-47).
Proof.
  intros H0 H1. unfold fmul_int.
  set (x := q * inject_Z 100).
  assert (Hx0 : 0 <= x) by (apply Qmult_le_0_compat; done).
  assert (Hx1 : x <= inject_Z 100).
  { unfold x. rewrite <- (Qmult_1_l (inject_Z 100)) at 2.
    by apply Qmult_le_compat_r. }
  pose proof (round_binary64_nonneg x Hx0) as Hy0.
  pose proof (round_binary64_le_integer x 100 ltac:(lia) Hx0 Hx1) as Hy1.
  rewrite to_float_finite by done.
  eexists. split; [reflexivity|]. split_and!; [done|done|].
  apply (round_binary64_error x 7); [lia|done|].
  eapply Qle_lt_trans; [exact Hx1|done].
Qed.

Lemma py_round_percent (y : Q) :
  0 <= y → y <= 100 →
  ∃ z, py_round (Finite y) 2 = Ok (Finite z) ∧ 0 <= z ∧ z <= 100 ∧
       Qabs (z - y) <= (1 # 200) + 2 ^ (-47).
Proof.
  intros H0 H1. unfold py_round.
  change (inject_Z (10 ^ 2)) with 100.
  pose proof (round_half_even_near (y * 100)) as Hnear.
  set (k := round_half_even (y * 100)) in *.
  assert (Hk0 : (0 <= k)%Z).
  { apply round_half_even_ge. change (inject_Z 0) with 0.
    apply Qmult_le_0_compat; done. }
  assert (Hk1 : (k <= 10000)%Z).
  { apply round_half_even_le. change (inject_Z 10000) with (100 * 100).
    by apply Qmult_le_compat_r. }
  set (x := inject_Z k / 100).
  assert (Hx0 : 0 <= x).
  { apply Qle_shift_div_l; [done|]. rewrite Qmult_0_l.
    change 0 with (inject_Z 0). by rewrite <- Zle_Qle. }
  assert (Hx1 : x <= inject_Z 100).
  { apply Qle_shift_div_r; [done|]. change (inject_Z 100 * 100) with (inject_Z 10000).
    by rewrite <- Zle_Qle. }
  pose proof (round_binary64_nonneg x Hx0) as Hz0.
  pose proof (round_binary64_le_integer x 100 ltac:(lia) Hx0 Hx1) as Hz1.
  rewrite to_float_finite by done.
  eexists. split; [reflexivity|]. split_and!; [done|done|].
  assert (Herr : Qabs (round_binary64 x - x) <= 2 ^ (-47)).
  { apply (round_binary64_error x 7); [lia|done|].
    eapply Qle_lt_trans; [exact Hx1|done]. }
  assert (Hxk : inject_Z k == x * 100) by (unfold x; field).
  rewrite Hxk in Hnear.
  apply Qabs_Qle_condition in Hnear as [Hn1 Hn2].
  apply Qabs_Qle_condition in Herr as [He1 He2].
  apply Qabs_Qle_condition. split; lra.
Qed.

(** The ratio-percentage of a numerator no longer than a non-empty
    denominator: a float of [0, 100], within half a hundredth (and three
    roundings) of the exact percentage. *)
Lemma ratio_percentage_range (num denom : DataFrame) :
  (len num <= len denom)%nat → (0 < len denom)%nat →
  ∃ q, ratio_percentage num denom = Ok (Finite q) ∧ 0 <= q ∧ q <= 100 ∧
       Qabs (q - 100 * (inject_Z (Z.of_nat (len num)) / inject_Z (Z.of_nat (len denom))))
       <= (1 # 200) + 2 ^ (-45).
Proof.
  intros Hle Hpos. unfold ratio_percentage.
  destruct (truediv_unit_interval (Z.of_nat (len num)) (Z.of_nat (len denom)))
    as (q & -> & Hq0 & Hq1 & Hqe); [lia|lia|].
  cbn [mbind result_bind].
  destruct (fmul_int_percent q Hq0 Hq1) as (y & -> & Hy0 & Hy1 & Hye).
  destruct (py_round_percent y Hy0 Hy1) as (z & -> & Hz0 & Hz1 & Hze).
  exists z. split; [done|]. split_and!; [done|done|].
  set (x := inject_Z (Z.of_nat (len num)) / inject_Z (Z.of_nat (len denom))) in *.
  change (2 ^ (-53)) with (1 # 9007199254740992) in Hqe.
  change (2 ^ (-47)) with (1 # 140737488355328) in Hye, Hze.
  change (2 ^ (-45)) with (1 # 35184372088832).
  apply Qabs_Qle_condition in Hqe as [Hq2 Hq3].
  apply Qabs_Qle_condition in Hye as [Hy2 Hy3].
  apply Qabs_Qle_condition in Hze as [Hz2 Hz3].
  apply Qabs_Qle_condition. split; lra.
Qed.

Local Close Scope Q_scope.

(** The rational model and the machine's binary64 unit agree on the
    quotient-times-100 step, here on quotients that are exact, inexact,
    and subject to a second rounding in the product. *)
Example model_matches_machine :
  Forall (λ ab : Z * Z, model_percent ab.1 ab.2 = machine_percent ab.1 ab.2)
    [ (3, 6); (1, 3); (2, 3); (1, 800); (29, 87); (5, 7); (17, 113);
      (0, 9); (41, 41); (123456789, 987654321); (7, 100) ]%Z.
Proof. repeat constructor. Qed.

(** ** Ratio-percentage *)

Lemma ratio_percentage_zero_denominator (num denom : DataFrame) :
  rows denom = [] → ratio_percentage num denom = Raise ZeroDivisionError.
Proof. intros H. unfold ratio_percentage, len. rewrite H. reflexivity. Qed.

Lemma ratio_percentage_zero_numerator (num denom : DataFrame) :
  rows num = [] → rows denom ≠ [] → ratio_percentage num denom = Ok (Finite 0%Q).
Proof.
  intros Hn Hd. unfold ratio_percentage, len. rewrite Hn.
  destruct (rows denom) as [|r rs]; [done|].
  change (Z.of_nat (length [])) with 0%Z.
  set (d := Z.of_nat (length (r :: rs))).
  assert (Hd0 : d ≠ 0%Z) by (unfold d; simpl; lia).
  unfold truediv. destruct (decide (d = 0%Z)); [done|].
  assert (Hz : round_binary64 (inject_Z 0 / inject_Z d) = 0%Q).
  { apply round_binary64_zero. unfold Qdiv. apply Qmult_0_l. }
  unfold to_float. rewrite Hz. reflexivity.
Qed.

Local Open Scope Q_scope.

Lemma to_float_Finite_inv (x q : Q) : to_float x = Finite q → q = round_binary64 x.
Proof.
  unfold to_float. destruct (Qle_bool _ _); [discriminate|]. by intros [= <-].
Qed.

Lemma truediv_Finite_inv (a b : Z) (q : Q) :
  truediv a b = Ok (Finite q) → q = round_binary64 (inject_Z a / inject_Z b).
Proof.
  unfold truediv. destruct (decide (b = 0%Z)); [discriminate|].
  destruct (to_float _) as [q'| |] eqn:E; [|discriminate..].
  intros [= <-]. by apply to_float_Finite_inv.
Qed.

Lemma fmul_int_Finite_inv (q y : Q) (n : Z) :
  fmul_int (Finite q) n = Finite y → y = round_binary64 (q * inject_Z n).
Proof. apply to_float_Finite_inv. Qed.

Lemma py_round_Finite_inv (y z : Q) :
  py_round (Finite y) 2 = Ok (Finite z) →
  z = round_binary64 (inject_Z (round_half_even (y * 100)) / 100).
Proof.
  unfold py_round. change (inject_Z (10 ^ 2)) with 100.
  destruct (to_float _) as [z'| |] eqn:E; [|discriminate..].
  intros [= <-]. by apply to_float_Finite_inv.
Qed.

(** The value [round(.., 2)] returns is a number of two decimals: the double
    nearest to [k / 100], where the integer [k] is the float product
    [y = (n / d) * 100] (the rounded product of the rounded quotient, within
    2^-45 of the exact percentage) rounded half-even at the second decimal. *)
Lemma ratio_percentage_two_decimals (num denom : DataFrame) :
  (len num <= len denom)%nat → (0 < len denom)%nat →
  ∃ (y : Q) (k : Z),
    ratio_percentage num denom = Ok (Finite (round_binary64 (inject_Z k / 100))) ∧
    k = round_half_even (y * 100) ∧ (0 <= k <= 10000)%Z ∧
    Qabs (y - 100 * (inject_Z (Z.of_nat (len num)) / inject_Z (Z.of_nat (len denom))))
      <= 2 ^ (-45) ∧
    Qabs (inject_Z k / 100 - y) <= 1 # 200 ∧
    y = round_binary64
          (round_binary64 (inject_Z (Z.of_nat (len num)) / inject_Z (Z.of_nat (len denom)))
           * 100).
Proof.
  intros Hle Hpos. unfold ratio_percentage.
  destruct (truediv_unit_interval (Z.of_nat (len num)) (Z.of_nat (len denom)))
    as (q & Hq & Hq0 & Hq1 & Hqe); [lia|lia|].
  pose proof (truediv_Finite_inv _ _ _ Hq) as Hqform.
  rewrite Hq. clear Hq.
  cbn [mbind result_bind].
  destruct (fmul_int_percent q Hq0 Hq1) as (y & Hy & Hy0 & Hy1 & Hye).
  pose proof (fmul_int_Finite_inv _ _ _ Hy) as Hyform.
  change (inject_Z 100) with 100 in Hyform.
  rewrite Hy. clear Hy.
  unfold py_round. change (inject_Z (10 ^ 2)) with 100.
  pose proof (round_half_even_near (y * 100)) as Hnear.
  set (k := round_half_even (y * 100)) in *.
  assert (Hk0 : (0 <= k)%Z).
  { apply round_half_even_ge. change (inject_Z 0) with 0.
    apply Qmult_le_0_compat; [exact Hy0|discriminate]. }
  assert (Hk1 : (k <= 10000)%Z).
  { apply round_half_even_le. change (inject_Z 10000) with (100 * 100).
    apply Qmult_le_compat_r; [exact Hy1|discriminate]. }
  set (x := inject_Z k / 100).
  assert (Hx0 : 0 <= x).
  { apply Qle_shift_div_l; [reflexivity|]. rewrite Qmult_0_l.
    change 0 with (inject_Z 0). by rewrite <- Zle_Qle. }
  assert (Hx1 : x <= inject_Z 100).
  { apply Qle_shift_div_r; [reflexivity|].
    change (inject_Z 100 * 100) with (inject_Z 10000). by rewrite <- Zle_Qle. }
  pose proof (round_binary64_nonneg x Hx0) as Hz0.
  pose proof (round_binary64_le_integer x 100 ltac:(lia) Hx0 Hx1) as Hz1.
  rewrite (to_float_finite x Hz0 Hz1).
  exists y, k. split; [reflexivity|]. split; [reflexivity|]. split; [lia|].
  assert (Hform : y = round_binary64
            (round_binary64
               (inject_Z (Z.of_nat (len num)) / inject_Z (Z.of_nat (len denom))) * 100)).
  { rewrite Hyform. f_equal. f_equal. exact Hqform. }
  clear Hyform Hqform.
  set (f := inject_Z (Z.of_nat (len num)) / inject_Z (Z.of_nat (len denom))) in *.
  assert (Hxk : inject_Z k == x * 100) by (unfold x; field).
  rewrite Hxk in Hnear.
  change (2 ^ (-53)) with (1 # 9007199254740992) in Hqe.
  change (2 ^ (-47)) with (1 # 140737488355328) in Hye.
  change (2 ^ (-45)) with (1 # 35184372088832).
  apply Qabs_Qle_condition in Hqe as [Hq2 Hq3].
  apply Qabs_Qle_condition in Hye as [Hy2 Hy3].
  apply Qabs_Qle_condition in Hnear as [Hn1 Hn2].
  change (inject_Z k / 100) with x.
  split; [|split; [|exact Hform]]; apply Qabs_Qle_condition; split; lra.
Qed.

Local Close Scope Q_scope.

(** C3: the ratio-percentage of a numerator table whose rows are a
    sub-sequence of those of a non-empty denominator table is a float in
    [0, 100] that is rounded to 2 decimals: it is the double nearest to
    [k / 100] for the integer [k] obtained by rounding the float product
    [y = (n / d) * 100] half-even at the second decimal, hence within half a
    hundredth (and the float roundings, less than 2^-45 together) of
    100 * count(numerator) / count(denominator); it is 0 when the numerator
    is empty and the denominator is not; and with an empty denominator the
    expression raises [ZeroDivisionError] instead of producing a number. *)
Theorem ratio_percentage_contract (num denom : DataFrame) :
  (sublist (rows num) (rows denom) → rows denom ≠ [] →
     ∃ q, ratio_percentage num denom = Ok (Finite q) ∧ (0 <= q)%Q ∧ (q <= 100)%Q ∧
          (Qabs (q - 100 * (inject_Z (Z.of_nat (len num)) /
                            inject_Z (Z.of_nat (len denom))))
           <= (1 # 200) + 2 ^ (-45))%Q ∧
          ∃ (y : Q) (k : Z),
            q = round_binary64 (inject_Z k / 100) ∧
            k = round_half_even (y * 100) ∧ (0 <= k <= 10000)%Z ∧
            y = round_binary64
                  (round_binary64 (inject_Z (Z.of_nat (len num)) /
                                   inject_Z (Z.of_nat (len denom))) * 100)%Q ∧
            (Qabs (y - 100 * (inject_Z (Z.of_nat (len num)) /
                              inject_Z (Z.of_nat (len denom))))
             <= 2 ^ (-45))%Q ∧
            (Qabs (inject_Z k / 100 - y) <= 1 # 200)%Q) ∧
  (rows num = [] → rows denom ≠ [] →
     ratio_percentage num denom = Ok (Finite 0%Q)) ∧
  (rows denom = [] → ratio_percentage num denom = Raise ZeroDivisionError).
Proof.
  split_and!.
  - intros Hsub Hne.
    assert (Hle : (len num <= len denom)%nat).
    { unfold len. by apply sublist_length. }
    assert (Hpos : (0 < len denom)%nat).
    { unfold len. destruct (rows denom); [done|simpl; lia]. }
    destruct (ratio_percentage_range num denom Hle Hpos) as (q & Hq & Hq0 & Hq1 & Hqe).
    destruct (ratio_percentage_two_decimals num denom Hle Hpos)
      as (y & k & Hk & Hky & Hkr & Hy & Hkd & Hyform).
    exists q. split; [exact Hq|]. split; [exact Hq0|]. split; [exact Hq1|].
    split; [exact Hqe|].
    exists y, k.
    split; [|split; [exact Hky|split; [exact Hkr|split; [exact Hyform|split;
                                                        [exact Hy|exact Hkd]]]]].
    rewrite Hq in Hk. by injection Hk.
  - apply ratio_percentage_zero_numerator.
  - apply ratio_percentage_zero_denominator.
Qed.

Lemma ratio_percentage_contract_witness :
  ratio_percentage (mkDataFrame ["description"] [[Str "foul_tip"]])
    (mkDataFrame ["description"] [[Str "foul"]; [Str "foul_tip"]; [Str "ball"]])
  = Ok (Finite (round_binary64 (3333 # 100))) ∧
  (∃ q, ratio_percentage (mkDataFrame ["description"] [[Str "foul_tip"]])
          (mkDataFrame ["description"] [[Str "foul"]; [Str "foul_tip"]; [Str "ball"]])
        = Ok (Finite q) ∧ (0 <= q)%Q ∧ (q <= 100)%Q ∧
        (Qabs (q - 100 * (1 / 3)) <= (1 # 200) + 2 ^ (-45))%Q ∧
        ∃ (y : Q) (k : Z),
          q = round_binary64 (inject_Z k / 100) ∧
          k = round_half_even (y * 100) ∧ (0 <= k <= 10000)%Z ∧
          y = round_binary64 (round_binary64 (1 / 3) * 100)%Q ∧
          (Qabs (y - 100 * (1 / 3)) <= 2 ^ (-45))%Q ∧
          (Qabs (inject_Z k / 100 - y) <= 1 # 200)%Q) ∧
  ratio_percentage (mkDataFrame ["description"] [])
    (mkDataFrame ["description"] [[Str "foul"]]) = Ok (Finite 0%Q) ∧
  ratio_percentage (mkDataFrame ["description"] [[Str "foul"]])
    (mkDataFrame ["description"] []) = Raise ZeroDivisionError.
Proof.
  split_and!.
  - vm_compute. reflexivity.
  - apply (ratio_percentage_contract
             (mkDataFrame ["description"] [[Str "foul_tip"]])
             (mkDataFrame ["description"] [[Str "foul"]; [Str "foul_tip"]; [Str "ball"]])).
    + simpl. apply sublist_cons, sublist_skip, sublist_nil_l.
    + discriminate.
  - apply (ratio_percentage_contract (mkDataFrame ["description"] [])
             (mkDataFrame ["description"] [[Str "foul"]])); [reflexivity|discriminate].
  - apply (ratio_percentage_contract (mkDataFrame ["description"] [[Str "foul"]])
             (mkDataFrame ["description"] [])). reflexivity.
Defined.

(** One in three: the float product is 33.33333333333333..., the value
    returned is the double nearest to 33.33. *)
Example ratio_percentage_one_of_three :
  ratio_percentage (mkDataFrame ["description"] [[Str "foul_tip"]])
    (mkDataFrame ["description"] [[Str "foul"]; [Str "foul_tip"]; [Str "ball"]])
  = Ok (Finite (round_binary64 (3333 # 100))).
Proof. vm_compute. reflexivity. Qed.

Example ratio_percentage_one_of_two :
  ratio_percentage (mkDataFrame ["description"] [[Str "foul_tip"]])
    (mkDataFrame ["description"] [[Str "foul"]; [Str "foul_tip"]])
  = Ok (Finite 50%Q).
Proof. vm_compute. reflexivity. Qed.

(** ** The whiff scenario *)

Lemma filter_engine_description_only (T : DataFrame) (d : string) (id : nat) :
  column_index T "description" = Ok id →
  filter_engine T "all" d "all" = Ok (restrict id (descriptions !! d) T).
Proof.
  intros Hid. unfold filter_engine.
  destruct no_group_all as (Hpa & _ & _).
  rewrite (dict_contains_None _ _ Hpa). cbn [mbind result_bind].
  destruct (descriptions !! d) as [cs|] eqn:Hd.
  - rewrite (dict_contains_Some _ _ _ Hd).
    unfold getitem, dict_getitem. rewrite Hid, Hd. cbn [mbind result_bind].
    unfold getitem_mask. by rewrite isin_column, select_rows_map.
  - by rewrite (dict_contains_None _ _ Hd).
Qed.

Lemma has_code_app i (l1 l2 : list string) r :
  has_code i (l1 ++ l2) r = has_code i l1 r || has_code i l2 r.
Proof.
  unfold has_code. destruct (cell_at i r) as [|x|q]; try done.
  apply eq_true_iff_eq.
  rewrite orb_true_iff, !bool_decide_eq_true. apply elem_of_app.
Qed.

Lemma filter_ext_elem {A} (P Q : A → Prop) `{!∀ x, Decision (P x), !∀ x, Decision (Q x)}
    (l : list A) :
  (∀ x, x ∈ l → P x ↔ Q x) → filter P l = filter Q l.
Proof.
  induction l as [|a l IH]; intros Hext; [done|].
  rewrite !filter_cons.
  rewrite IH by (intros x Hx; apply Hext; by right).
  apply decide_ext. apply Hext. by left.
Qed.

Lemma count_codes_split i (l1 l2 : list string) (T : DataFrame) :
  count_codes i l2 T = 0 → count_codes i (l1 ++ l2) T = count_codes i l1 T.
Proof.
  unfold count_codes. intros H0. apply nil_length_inv in H0.
  f_equal. apply filter_ext_elem. intros r Hr.
  rewrite has_code_app, orb_true_iff.
  split; [|by left]. intros [?|H2]; [done|].
  exfalso. by apply (filter_nil_not_elem_of _ _ r H0).
Qed.

(** C7, as the code has it: in a table of 10 rows with 3 rows of code
    "swinging_strike", no row of code "swinging_strike_blocked" or
    "foul_tip", and 6 rows with a code of the "swing" group, the
    ratio-percentage of the "swinging strike" rows over the "swing" rows is
    exactly 50.0. *)
Theorem whiff_scenario_fifty (T : DataFrame) (id : nat) :
  column_index T "description" = Ok id →
  len T = 10 →
  count_codes id ["swinging_strike"] T = 3 →
  count_codes id ["swinging_strike_blocked"; "foul_tip"] T = 0 →
  count_codes id ["hit_into_play"; "swinging_strike"; "swinging_strike_blocked";
                  "foul_tip"; "foul"] T = 6 →
  whiff_percentage T = Ok (Finite 50%Q).
Proof.
  intros Hid _ Hss Hother Hswing. unfold whiff_percentage.
  rewrite !(filter_engine_description_only _ _ _ Hid).
  change (descriptions !! "swinging strike")
    with (Some (["swinging_strike"] ++ ["swinging_strike_blocked"; "foul_tip"])).
  change (descriptions !! "swing")
    with (Some ["hit_into_play"; "swinging_strike"; "swinging_strike_blocked";
                "foul_tip"; "foul"]).
  cbn [mbind result_bind].
  unfold ratio_percentage, len. cbn [restrict rows].
  fold (count_codes id (["swinging_strike"] ++ ["swinging_strike_blocked"; "foul_tip"]) T).
  fold (count_codes id ["hit_into_play"; "swinging_strike"; "swinging_strike_blocked";
                        "foul_tip"; "foul"] T).
  rewrite (count_codes_split _ _ _ _ Hother), Hss, Hswing.
  vm_compute. reflexivity.
Qed.

Lemma whiff_scenario_fifty_witness : whiff_percentage whiff_table_hits = Ok (Finite 50%Q).
Proof.
  apply (whiff_scenario_fifty whiff_table_hits 0); reflexivity.
Defined.

(** A table that fits the scenario as worded (10 rows, 3 of them
    "swinging_strike", 6 of them in the "swing" group) whose other three
    swings are foul tips: the "swinging strike" group takes them too, and
    the ratio-percentage is 100.0. *)
Lemma whiff_scenario_foul_tips :
  len whiff_table_foul_tips = 10 ∧
  count_codes 0 ["swinging_strike"] whiff_table_foul_tips = 3 ∧
  count_codes 0 ["hit_into_play"; "swinging_strike"; "swinging_strike_blocked";
                 "foul_tip"; "foul"] whiff_table_foul_tips = 6 ∧
  whiff_percentage whiff_table_foul_tips = Ok (Finite 100%Q) ∧
  whiff_percentage whiff_table_foul_tips ≠ Ok (Finite 50%Q).
Proof.
  assert (H : whiff_percentage whiff_table_foul_tips = Ok (Finite 100%Q))
    by (vm_compute; reflexivity).
  split_and!; [reflexivity| reflexivity | reflexivity | exact H |].
  rewrite H. discriminate.
Qed.

(** ** Swinging strikes are swings *)

Lemma sublist_filter_mono {A} (P : A → Prop) `{!∀ x, Decision (P x)} (l1 l2 : list A) :
  sublist l1 l2 → sublist (filter P l1) (filter P l2).
Proof.
  induction 1 as [|x l1 l2 _ IH|x l1 l2 _ IH]; [done|..].
  - rewrite !filter_cons. destruct (decide (P x)); [by apply sublist_skip|done].
  - rewrite filter_cons. destruct (decide (P x)); [by apply sublist_cons|done].
Qed.

Lemma restrict_sublist_mono i codes (T1 T2 : DataFrame) :
  sublist (rows T1) (rows T2) →
  sublist (rows (restrict i codes T1)) (rows (restrict i codes T2)).
Proof. intros H. rewrite !restrict_rows. by apply sublist_filter_mono. Qed.

Lemma restrict_subset_codes i (cs1 cs2 : list string) (T : DataFrame) :
  cs1 ⊆ cs2 →
  sublist (rows (restrict i (Some cs1) T)) (rows (restrict i (Some cs2) T)).
Proof.
  intros Hsub. simpl.
  rewrite <- (list_filter_filter_l (λ r, has_code i cs1 r = true)
                                   (λ r, has_code i cs2 r = true)).
  - apply sublist_filter.
  - intros r (x & Hx & Hin)%has_code_true. apply has_code_true.
    exists x. split; [done|]. by apply Hsub.
Qed.

(** C10: the code set of "swinging strike" is strictly inside the code set
    of "swing"; hence, for any source table and any fixed pitch-type and
    handedness selectors, the "swinging strike" rows are a sub-sequence of
    the "swing" rows, and the whiff rate of the two tables, when there is a
    swing at all, is a float between 0 and 100. *)
Theorem swinging_strike_within_swing :
  (∃ ss sw,
     descriptions !! "swinging strike" = Some ss ∧
     descriptions !! "swing" = Some sw ∧
     ss = ["swinging_strike"; "swinging_strike_blocked"; "foul_tip"] ∧
     ss ⊆ sw ∧ ∃ x, x ∈ sw ∧ x ∉ ss) ∧
  (∀ (T : DataFrame) (p h : string) (ip id ih : nat),
     column_index T "pitch_type" = Ok ip →
     column_index T "description" = Ok id →
     column_index T "p_throws" = Ok ih →
     ∃ Tn Td,
       filter_engine T p "swinging strike" h = Ok Tn ∧
       filter_engine T p "swing" h = Ok Td ∧
       sublist (rows Tn) (rows Td) ∧
       (rows Td ≠ [] →
          ∃ q, ratio_percentage Tn Td = Ok (Finite q) ∧ (0 <= q)%Q ∧ (q <= 100)%Q)).
Proof.
  assert (Hsub : ["swinging_strike"; "swinging_strike_blocked"; "foul_tip"]
                 ⊆ ["hit_into_play"; "swinging_strike"; "swinging_strike_blocked";
                    "foul_tip"; "foul"]).
  { intros x Hx. right.
    change (x ∈ ["swinging_strike"; "swinging_strike_blocked"; "foul_tip"] ++ ["foul"]).
    apply elem_of_app. by left. }
  split.
  - do 2 eexists. split_and!; [reflexivity|reflexivity|reflexivity|exact Hsub|].
    exists "foul". split; [do 4 right; by left|].
    intros Hin. by repeat (apply elem_of_cons in Hin as [Hin|Hin]; [done|]);
      apply elem_of_nil in Hin.
  - intros T p h ip id ih Hp Hd Hh.
    rewrite !(filter_engine_spec T _ _ _ _ _ _ Hp Hd Hh).
    set (Tn := restrict ih _ (restrict id (descriptions !! "swinging strike") _)).
    set (Td := restrict ih _ (restrict id (descriptions !! "swing") _)).
    exists Tn, Td. split; [done|]. split; [done|].
    assert (Hrows : sublist (rows Tn) (rows Td)).
    { apply restrict_sublist_mono. by apply restrict_subset_codes. }
    split; [exact Hrows|].
    intros Hne.
    destruct (ratio_percentage_range Tn Td) as (q & Hq & Hq0 & Hq1 & _); unfold len.
    + by apply sublist_length.
    + destruct (rows Td); [done|simpl; lia].
    + by exists q.
Qed.

Lemma swinging_strike_within_swing_witness :
  ∃ Tn Td,
    filter_engine sample_table "fastball" "swinging strike" "L" = Ok Tn ∧
    filter_engine sample_table "fastball" "swing" "L" = Ok Td ∧
    sublist (rows Tn) (rows Td) ∧
    (rows Td ≠ [] →
       ∃ q, ratio_percentage Tn Td = Ok (Finite q) ∧ (0 <= q)%Q ∧ (q <= 100)%Q).
Proof.
  destruct swinging_strike_within_swing as [_ H].
  apply (H sample_table "fastball" "L" 1 2 5); reflexivity.
Defined.

(** ** Mean of a column *)

Local Open Scope Q_scope.

(** Rounding to the nearest double moves an exact result by at most 2^-53 of
    its magnitude, or by half the spacing of the subnormals. *)
Lemma round_binary64_relative (x : Q) :
  Qabs (round_binary64 x - x) <= 2 ^ (-53) * Qabs x + 2 ^ (-1075).
Proof.
  destruct (Qeq_dec x 0) as [E|E].
  { rewrite round_binary64_zero by exact E. rewrite E. by vm_compute. }
  assert (Hax : 0 < Qabs x).
  { destruct (Qle_lt_or_eq _ _ (Qabs_nonneg x)) as [H|H]; [exact H|].
    exfalso. apply E.
    assert (Hc : Qabs x <= 0) by (rewrite <- H; apply Qle_refl).
    apply Qabs_Qle_condition in Hc. lra. }
  rewrite round_binary64_grid by exact E.
  unfold ulp_exponent.
  destruct (ilog2_spec (Qabs x) Hax) as [Hlo _].
  set (e := ilog2 (Qabs x)) in *.
  set (k := Z.max (e - 52) (-1074)).
  pose proof (two_power_pos k) as Hp.
  pose proof (round_half_even_near (x / 2 ^ k)) as Hnear.
  set (m := inject_Z (round_half_even (x / 2 ^ k))) in *.
  set (t := x / 2 ^ k) in *.
  assert (Hxt : x == t * 2 ^ k).
  { unfold t. field. intros E0. rewrite E0 in Hp. by apply Qlt_irrefl in Hp. }
  assert (Hk : 2 ^ k <= 2 * (2 ^ (-53) * Qabs x + 2 ^ (-1075))).
  { destruct (Z.max_spec (e - 52) (-1074)) as [[_ Hm]|[_ Hm]]; fold k in Hm; rewrite Hm.
    - assert (0 <= 2 ^ (-53) * Qabs x).
      { apply Qmult_le_0_compat; [apply Qlt_le_weak, two_power_pos|apply Qabs_nonneg]. }
      assert (2 ^ (-1074) == 2 * 2 ^ (-1075)) by (by vm_compute).
      lra.
    - assert (Hs : 2 ^ (e - 52) == 2 * (2 ^ (-53) * 2 ^ e)).
      { replace (e - 52)%Z with (1 + (-53 + e))%Z by lia.
        rewrite !Qpower_plus by done. reflexivity. }
      rewrite Hs.
      assert (2 ^ (-53) * 2 ^ e <= 2 ^ (-53) * Qabs x).
      { apply Qmult_le_l; [apply two_power_pos|exact Hlo]. }
      pose proof (two_power_pos (-1075)). lra. }
  apply Qabs_Qle_condition in Hnear as [Hn1 Hn2].
  set (p := 2 ^ k) in *. set (B := 2 ^ (-53) * Qabs x + 2 ^ (-1075)) in *.
  assert (H1 : (m - t) * p <= (1 # 2) * p) by (apply Qmult_le_compat_r; lra).
  assert (H2 : (- (1 # 2)) * p <= (m - t) * p) by (apply Qmult_le_compat_r; lra).
  apply Qabs_Qle_condition. rewrite Hxt.
  assert (Heq : m * p - t * p == (m - t) * p) by ring.
  rewrite Heq. split; lra.
Qed.

(** No overflow below 2^1023 + 2^-1022. *)
Lemma to_float_in_range (x : Q) :
  Qabs x <= 2 ^ 1023 + 2 ^ (-1022) → to_float x = Finite (round_binary64 x).
Proof.
  intros Hx. unfold to_float.
  destruct (Qle_bool (2 ^ 1024) (Qabs (round_binary64 x))) eqn:E; [|reflexivity].
  exfalso. apply Qle_bool_iff in E.
  pose proof (round_binary64_relative x) as Hr.
  pose proof (Qabs_triangle (round_binary64 x - x) x) as Ht.
  assert (Heq : round_binary64 x - x + x == round_binary64 x) by ring.
  rewrite Heq in Ht.
  assert (Hm : 2 ^ (-53) * Qabs x <= 2 ^ (-53) * (2 ^ 1023 + 2 ^ (-1022))).
  { apply Qmult_le_l; [apply two_power_pos|exact Hx]. }
  assert (Hc : 2 ^ (-53) * (2 ^ 1023 + 2 ^ (-1022)) + 2 ^ (-1075)
               + (2 ^ 1023 + 2 ^ (-1022)) < 2 ^ 1024) by (by vm_compute).
  set (a := Qabs x) in *. set (r := Qabs (round_binary64 x)) in *.
  set (d := Qabs (round_binary64 x - x)) in *.
  set (K := 2 ^ 1023 + 2 ^ (-1022)) in *. set (T := 2 ^ 1024) in *.
  set (ua := 2 ^ (-53) * a) in *. set (uK := 2 ^ (-53) * K) in *.
  set (h := 2 ^ (-1075)) in *.
  clearbody a r d K T ua uK h. lra.
Qed.

Lemma Qabs_sum_nonneg (l : list Q) : 0 <= Qabs_sum l.
Proof.
  induction l as [|x l IH]; cbn [Qabs_sum foldr]; [apply Qle_refl|].
  fold (Qabs_sum l). pose proof (Qabs_nonneg x). lra.
Qed.

Lemma Qabs_sum_app (l k : list Q) : Qabs_sum (l ++ k) == Qabs_sum l + Qabs_sum k.
Proof.
  induction l as [|x l IH]; cbn [Qabs_sum foldr app].
  - fold (Qabs_sum k). ring.
  - fold (Qabs_sum (l ++ k)) (Qabs_sum l). rewrite IH. ring.
Qed.

Lemma Qsum_app (l k : list Q) : Qsum (l ++ k) == Qsum l + Qsum k.
Proof.
  induction l as [|x l IH]; cbn [Qsum foldr app].
  - fold (Qsum k). ring.
  - fold (Qsum (l ++ k)) (Qsum l). rewrite IH. ring.
Qed.

Lemma Qsum_le_Qabs_sum (l : list Q) : Qabs (Qsum l) <= Qabs_sum l.
Proof.
  induction l as [|x l IH]; cbn [Qsum Qabs_sum foldr].
  - apply Qle_refl.
  - fold (Qsum l) (Qabs_sum l).
    eapply Qle_trans; [apply Qabs_triangle|]. lra.
Qed.

Section RoundingSteps.
Variables (u h : Q).
Hypothesis (Hu0 : 0 <= u) (Hh0 : 0 <= h).

(** One rounded addition: the error bounds of the two operands add up and
    grow by one rounding. *)
Lemma rounded_add_error (al ar Sl Sr Al Ar cl cr r : Q) :
  0 <= cl → 0 <= cr → (cl + cr) * u <= 1 →
  Qabs Sl <= Al → Qabs Sr <= Ar →
  Qabs (al - Sl) <= cl * (u * Al + h) →
  Qabs (ar - Sr) <= cr * (u * Ar + h) →
  Qabs (r - (al + ar)) <= u * Qabs (al + ar) + h →
  Qabs (al + ar) <= 2 * (Al + Ar) + (cl + cr) * h ∧
  Qabs (r - (Sl + Sr)) <= (cl + cr + 2) * (u * (Al + Ar) + h).
Proof.
  intros Hcl Hcr Hcu HSl HSr Hl Hr Hround.
  pose proof (Qabs_nonneg Sl) as HSl0. pose proof (Qabs_nonneg Sr) as HSr0.
  set (B := u * (Al + Ar) + h).
  assert (HuA : 0 <= u * Al) by (apply Qmult_le_0_compat; lra).
  assert (HuA' : 0 <= u * Ar) by (apply Qmult_le_0_compat; lra).
  assert (HB : 0 <= B) by (unfold B; lra).
  assert (Hl' : cl * (u * Al + h) <= cl * B).
  { destruct (Qle_lt_or_eq _ _ Hcl) as [Hp|Hz].
    - apply Qmult_le_l; [exact Hp|]. unfold B. lra.
    - rewrite <- Hz. lra. }
  assert (Hr' : cr * (u * Ar + h) <= cr * B).
  { destruct (Qle_lt_or_eq _ _ Hcr) as [Hp|Hz].
    - apply Qmult_le_l; [exact Hp|]. unfold B. lra.
    - rewrite <- Hz. lra. }
  assert (Hs : Qabs (al + ar - (Sl + Sr)) <= (cl + cr) * B).
  { assert (Heq : al + ar - (Sl + Sr) == (al - Sl) + (ar - Sr)) by ring.
    rewrite Heq. eapply Qle_trans; [apply Qabs_triangle|]. lra. }
  assert (HcuB : (cl + cr) * B <= (Al + Ar) + (cl + cr) * h).
  { assert (Heq : (cl + cr) * B == ((cl + cr) * u) * (Al + Ar) + (cl + cr) * h)
      by (unfold B; ring).
    rewrite Heq.
    assert ((cl + cr) * u * (Al + Ar) <= 1 * (Al + Ar)).
    { apply Qmult_le_compat_r; [exact Hcu|lra]. }
    lra. }
  assert (Hmag : Qabs (al + ar) <= (Al + Ar) + (cl + cr) * B).
  { assert (Heq : al + ar == (al + ar - (Sl + Sr)) + (Sl + Sr)) by ring.
    rewrite Heq at 1. eapply Qle_trans; [apply Qabs_triangle|].
    pose proof (Qabs_triangle Sl Sr). lra. }
  split; [lra|].
  assert (Heq : r - (Sl + Sr) == (r - (al + ar)) + (al + ar - (Sl + Sr))) by ring.
  rewrite Heq. eapply Qle_trans; [apply Qabs_triangle|].
  assert (Hum : u * Qabs (al + ar) <= u * ((Al + Ar) + (cl + cr) * B)).
  { destruct (Qle_lt_or_eq _ _ Hu0) as [Hp|Hz].
    - apply Qmult_le_l; [exact Hp|exact Hmag].
    - rewrite <- Hz. lra. }
  assert (Hcub : u * ((cl + cr) * B) <= B).
  { assert (Heq2 : u * ((cl + cr) * B) == ((cl + cr) * u) * B) by ring.
    rewrite Heq2.
    assert ((cl + cr) * u * B <= 1 * B) by (apply Qmult_le_compat_r; [exact Hcu|exact HB]).
    lra. }
  assert (Hexp : u * ((Al + Ar) + (cl + cr) * B) == u * (Al + Ar) + u * ((cl + cr) * B))
    by ring.
  assert (Hgoal : (cl + cr + 2) * B == (cl + cr) * B + 2 * B) by ring.
  rewrite Hgoal. rewrite Hexp in Hum. unfold B in *. lra.
Qed.

End RoundingSteps.

Section MeanStep.
Variables (u h : Q).
Hypothesis (Hu0 : 0 <= u) (Hu1 : u <= 1 # 2) (Hh0 : 0 <= h).

(** The rounded division of a rounded sum by the count. *)
Lemma rounded_mean_error (a S A c N q : Q) :
  1 <= N → 0 <= c → c <= 2 * N → c * u <= 1 →
  Qabs S <= A → Qabs (a - S) <= c * (u * A + h) →
  Qabs (q - a / N) <= u * Qabs (a / N) + h →
  Qabs (a / N) <= 2 * A + c * h ∧
  Qabs (q - S / N) <= (N + 1) * (2 * u) * (A / N) + 4 * h.
Proof.
  intros HN Hc0 HcN Hcu HS Ha Hq.
  assert (HNpos : 0 < N) by lra.
  assert (HNne : ¬ N == 0) by (intros E; rewrite E in HNpos; by apply Qlt_irrefl in HNpos).
  unfold Qdiv in *. set (i := / N) in *.
  assert (Hi0 : 0 < i) by (by apply Qinv_lt_0_compat).
  assert (HNi : N * i == 1) by (unfold i; by apply Qmult_inv_r).
  assert (Hi1 : i <= 1).
  { assert (1 * i <= N * i) by (apply Qmult_le_compat_r; lra). lra. }
  pose proof (Qabs_nonneg S) as HS0.
  assert (HA0 : 0 <= A) by lra.
  set (M := A * i).
  assert (HM0 : 0 <= M) by (apply Qmult_le_0_compat; lra).
  assert (HMA : M <= A).
  { assert (A * i <= A * 1).
    { destruct (Qle_lt_or_eq _ _ HA0) as [Hp|Hz].
      - apply Qmult_le_l; [exact Hp|exact Hi1].
      - rewrite <- Hz. lra. }
    unfold M. lra. }
  assert (Hci : c * i <= 2).
  { assert (c * i <= 2 * N * i) by (apply Qmult_le_compat_r; lra).
    assert (2 * N * i == 2) by (rewrite <- Qmult_assoc, HNi; ring). lra. }
  assert (Hci0 : 0 <= c * i) by (apply Qmult_le_0_compat; lra).
  assert (HuM : 0 <= u * M) by (by apply Qmult_le_0_compat).
  assert (Hiabs : Qabs i == i) by (apply Qabs_pos; lra).
  (* the exact quotients *)
  assert (HE : Qabs (a * i - S * i) <= c * u * M + c * i * h).
  { assert (Heq : a * i - S * i == (a - S) * i) by ring.
    rewrite Heq, Qabs_Qmult, Hiabs.
    assert (Qabs (a - S) * i <= c * (u * A + h) * i)
      by (apply Qmult_le_compat_r; [exact Ha|lra]).
    assert (c * (u * A + h) * i == c * u * M + c * i * h) by (unfold M; ring).
    lra. }
  assert (HSi : Qabs (S * i) <= M).
  { rewrite Qabs_Qmult, Hiabs. unfold M. apply Qmult_le_compat_r; [exact HS|lra]. }
  assert (HcuM : c * u * M <= M).
  { assert (c * u * M <= 1 * M) by (apply Qmult_le_compat_r; [exact Hcu|exact HM0]). lra. }
  assert (HcNuM : c * u * M <= 2 * N * (u * M)).
  { assert (c * (u * M) <= 2 * N * (u * M)) by (apply Qmult_le_compat_r; [exact HcN|exact HuM]).
    assert (c * u * M == c * (u * M)) by ring. lra. }
  assert (Hcih : c * i * h <= 2 * h).
  { apply Qmult_le_compat_r; [exact Hci|exact Hh0]. }
  assert (Hcih0 : 0 <= c * i * h) by (by apply Qmult_le_0_compat).
  assert (Hch : c * i * h <= c * h).
  { assert (c * h * i <= c * h * 1).
    { assert (Hch0 : 0 <= c * h) by (by apply Qmult_le_0_compat).
      destruct (Qle_lt_or_eq _ _ Hch0) as [Hp|Hz].
      - apply Qmult_le_l; [exact Hp|exact Hi1].
      - rewrite <- Hz. lra. }
    assert (c * i * h == c * h * i) by ring. lra. }
  assert (Hmag : Qabs (a * i) <= 2 * M + c * i * h).
  { assert (Heq : a * i == (a * i - S * i) + S * i) by ring.
    rewrite Heq. eapply Qle_trans; [apply Qabs_triangle|]. lra. }
  split; [lra|].
  assert (Hum : u * Qabs (a * i) <= 2 * (u * M) + h).
  { assert (Hx : u * Qabs (a * i) <= u * (2 * M + 2 * h)).
    { destruct (Qle_lt_or_eq _ _ Hu0) as [Hp|Hz].
      - apply Qmult_le_l; [exact Hp|lra].
      - rewrite <- Hz. lra. }
    assert (Huh : u * h <= (1 # 2) * h) by (apply Qmult_le_compat_r; [exact Hu1|exact Hh0]).
    assert (u * (2 * M + 2 * h) == 2 * (u * M) + 2 * (u * h)) by ring. lra. }
  assert (Heq : q - S * i == (q - a * i) + (a * i - S * i)) by ring.
  rewrite Heq. eapply Qle_trans; [apply Qabs_triangle|].
  assert (Hgoal : (N + 1) * (2 * u) * M == 2 * N * (u * M) + 2 * (u * M)) by ring.
  fold M. rewrite Hgoal. lra.
Qed.

End MeanStep.

Lemma tree_values_length (t : sum_tree) : (1 <= length (tree_values t))%nat.
Proof.
  induction t as [q|l IHl r IHr]; cbn [tree_values length]; [lia|].
  rewrite length_app. lia.
Qed.

(** The floating-point sum along any summation tree: short of overflow it
    is finite, and within the usual bound of the exact sum. *)
Lemma tree_sum_error (t : sum_tree) :
  Qabs_sum (tree_values t) <= 2 ^ 1022 →
  (Z.of_nat (length (tree_values t)) <= 2 ^ 52 + 1)%Z →
  ∃ a, tree_sum t = Finite a ∧
       Qabs (a - Qsum (tree_values t))
       <= inject_Z (2 * (Z.of_nat (length (tree_values t)) - 1))
          * (2 ^ (-53) * Qabs_sum (tree_values t) + 2 ^ (-1075)).
Proof.
  induction t as [q|l IHl r IHr]; cbn [tree_values tree_sum]; intros HA Hn.
  - exists q. split; [reflexivity|].
    cbn [Qsum Qabs_sum foldr length].
    assert (Heq : q - (q + 0) == 0) by ring. rewrite Heq.
    change (inject_Z (2 * (Z.of_nat 1 - 1))) with 0. rewrite Qmult_0_l. apply Qle_refl.
  - rewrite length_app in *. rewrite Qabs_sum_app in HA.
    pose proof (tree_values_length l) as Hl1. pose proof (tree_values_length r) as Hr1.
    pose proof (Qabs_sum_nonneg (tree_values l)) as HAl.
    pose proof (Qabs_sum_nonneg (tree_values r)) as HAr.
    destruct IHl as (al & El & Hal); [lra|lia|].
    destruct IHr as (ar & Er & Har); [lra|lia|].
    rewrite El, Er. cbn [fadd].
    set (nl := Z.of_nat (length (tree_values l))) in *.
    set (nr := Z.of_nat (length (tree_values r))) in *.
    assert (Hnn : Z.of_nat (length (tree_values l) + length (tree_values r)) = (nl + nr)%Z)
      by (unfold nl, nr; lia).
    rewrite Hnn in *.
    assert (Hnl : (1 <= nl)%Z) by (unfold nl; lia).
    assert (Hnr : (1 <= nr)%Z) by (unfold nr; lia).
    set (cl := inject_Z (2 * (nl - 1))) in *. set (cr := inject_Z (2 * (nr - 1))) in *.
    assert (Hcl : 0 <= cl) by (unfold cl; change 0 with (inject_Z 0); rewrite <- Zle_Qle; lia).
    assert (Hcr : 0 <= cr) by (unfold cr; change 0 with (inject_Z 0); rewrite <- Zle_Qle; lia).
    assert (Hc53 : cl + cr <= inject_Z (2 ^ 53)).
    { unfold cl, cr. rewrite <- inject_Z_plus, <- Zle_Qle. lia. }
    assert (Hcu : (cl + cr) * 2 ^ (-53) <= 1).
    { assert ((cl + cr) * 2 ^ (-53) <= inject_Z (2 ^ 53) * 2 ^ (-53)).
      { apply Qmult_le_compat_r; [exact Hc53|apply Qlt_le_weak, two_power_pos]. }
      assert (inject_Z (2 ^ 53) * 2 ^ (-53) == 1) by (by vm_compute). lra. }
    assert (Hch : (cl + cr) * 2 ^ (-1075) <= 2 ^ (-1022)).
    { assert ((cl + cr) * 2 ^ (-1075) <= inject_Z (2 ^ 53) * 2 ^ (-1075)).
      { apply Qmult_le_compat_r; [exact Hc53|apply Qlt_le_weak, two_power_pos]. }
      assert (inject_Z (2 ^ 53) * 2 ^ (-1075) == 2 ^ (-1022)) by (by vm_compute). lra. }
    destruct (rounded_add_error (2 ^ (-53)) (2 ^ (-1075))
                (Qlt_le_weak _ _ (two_power_pos _)) (Qlt_le_weak _ _ (two_power_pos _))
                al ar (Qsum (tree_values l)) (Qsum (tree_values r))
                (Qabs_sum (tree_values l)) (Qabs_sum (tree_values r)) cl cr
                (round_binary64 (al + ar)) Hcl Hcr Hcu
                (Qsum_le_Qabs_sum _) (Qsum_le_Qabs_sum _) Hal Har
                (round_binary64_relative _)) as [Hmag Herr].
    exists (round_binary64 (al + ar)). split.
    + apply to_float_in_range.
      assert (2 ^ 1023 == 2 * 2 ^ 1022) by (by vm_compute).
      set (K := 2 ^ 1022) in *. set (K' := 2 ^ 1023) in *.
      set (h := 2 ^ (-1075)) in *. set (h' := 2 ^ (-1022)) in *.
      set (x := Qabs (al + ar)) in *. set (ch := (cl + cr) * h) in *.
      clearbody K K' h h' x ch. lra.
    + rewrite Qsum_app, Qabs_sum_app.
      assert (Hc : inject_Z (2 * (nl + nr - 1)) == cl + cr + 2).
      { unfold cl, cr, Qeq, Qplus, inject_Z. cbn [Qnum Qden]. lia. }
      rewrite Hc. exact Herr.
Qed.



Lemma Qsum_Permutation (l k : list Q) : l ≡ₚ k → Qsum l == Qsum k.
Proof.
  induction 1 as [|x l k _ IH|x y l|l k m _ IH1 _ IH2]; cbn [Qsum foldr].
  - reflexivity.
  - fold (Qsum l) (Qsum k). by rewrite IH.
  - ring.
  - by rewrite IH1.
Qed.

Lemma Qabs_sum_Permutation (l k : list Q) : l ≡ₚ k → Qabs_sum l == Qabs_sum k.
Proof.
  induction 1 as [|x l k _ IH|x y l|l k m _ IH1 _ IH2]; cbn [Qabs_sum foldr].
  - reflexivity.
  - fold (Qabs_sum l) (Qabs_sum k). by rewrite IH.
  - ring.
  - by rewrite IH1.
Qed.

(** The binary64 mean along a summation tree of [n] values and, possibly,
    zeros: short of overflow it is finite and close to the exact mean. *)
Lemma tree_mean_error (t : sum_tree) (vals : list Q) :
  Qsum (tree_values t) == Qsum vals →
  Qabs_sum (tree_values t) == Qabs_sum vals →
  (length (tree_values t) <= S (length vals))%nat →
  vals ≠ [] →
  Qabs_sum vals <= 2 ^ 1022 →
  (Z.of_nat (length vals) <= 2 ^ 52)%Z →
  ∃ q, fdiv_count (tree_sum t) (length vals) = Finite q ∧
       Qabs (q - Qsum vals / inject_Z (Z.of_nat (length vals)))
       <= (inject_Z (Z.of_nat (length vals)) + 1) * 2 ^ (-52)
          * (Qabs_sum vals / inject_Z (Z.of_nat (length vals)))
          + 2 ^ (-1073).
Proof.
  intros HS HA Hlen Hne Hbig Hn.
  destruct (tree_sum_error t) as (a & Ea & Herr); [by rewrite HA|lia|].
  rewrite HS, HA in Herr. rewrite Ea. cbn [fdiv_count].
  set (n := Z.of_nat (length vals)) in *.
  assert (Hn1 : (1 <= n)%Z) by (unfold n; destruct vals; [done|cbn [length]; lia]).
  pose proof (tree_values_length t) as Hl1.
  set (c := inject_Z (2 * (Z.of_nat (length (tree_values t)) - 1))) in *.
  set (N := inject_Z n).
  assert (HN : 1 <= N) by (unfold N; change 1 with (inject_Z 1); rewrite <- Zle_Qle; lia).
  assert (Hc0 : 0 <= c) by (unfold c; change 0 with (inject_Z 0); rewrite <- Zle_Qle; lia).
  assert (HcN : c <= 2 * N).
  { unfold c, N. change 2 with (inject_Z 2). rewrite <- inject_Z_mult, <- Zle_Qle. lia. }
  assert (Hc53 : c <= inject_Z (2 ^ 53)) by (unfold c; rewrite <- Zle_Qle; lia).
  assert (Hcu : c * 2 ^ (-53) <= 1).
  { assert (c * 2 ^ (-53) <= inject_Z (2 ^ 53) * 2 ^ (-53)).
    { apply Qmult_le_compat_r; [exact Hc53|apply Qlt_le_weak, two_power_pos]. }
    assert (inject_Z (2 ^ 53) * 2 ^ (-53) == 1) by (by vm_compute). lra. }
  assert (Hch : c * 2 ^ (-1075) <= 2 ^ (-1022)).
  { assert (c * 2 ^ (-1075) <= inject_Z (2 ^ 53) * 2 ^ (-1075)).
    { apply Qmult_le_compat_r; [exact Hc53|apply Qlt_le_weak, two_power_pos]. }
    assert (inject_Z (2 ^ 53) * 2 ^ (-1075) == 2 ^ (-1022)) by (by vm_compute). lra. }
  assert (Hu1 : 2 ^ (-53) <= 1 # 2) by (by vm_compute).
  destruct (rounded_mean_error (2 ^ (-53)) (2 ^ (-1075))
              (Qlt_le_weak _ _ (two_power_pos _)) Hu1 (Qlt_le_weak _ _ (two_power_pos _))
              a (Qsum vals) (Qabs_sum vals) c N (round_binary64 (a / N))
              HN Hc0 HcN Hcu (Qsum_le_Qabs_sum _) Herr
              (round_binary64_relative _)) as [Hmag Hq].
  exists (round_binary64 (a / N)). split.
  - apply to_float_in_range.
    assert (2 ^ 1023 == 2 * 2 ^ 1022) by (by vm_compute).
    set (K := 2 ^ 1022) in *. set (K' := 2 ^ 1023) in *.
    set (h := 2 ^ (-1075)) in *. set (h' := 2 ^ (-1022)) in *.
    set (x := Qabs (a / N)) in *. set (ch := c * h) in *.
    clearbody K K' h h' x ch. lra.
  - assert (H52 : 2 ^ (-52) == 2 * 2 ^ (-53)) by (by vm_compute).
    assert (H1073 : 2 ^ (-1073) == 4 * 2 ^ (-1075)) by (by vm_compute).
    rewrite H52, H1073. exact Hq.
Qed.

Local Close Scope Q_scope.







(** In whatever order and grouping the non-missing values are added, the
    binary64 mean is finite and within the same distance of the exact
    mean, short of overflow. *)
Lemma mean_error_any_order (t : sum_tree) (vals : list Q) :
  tree_values t ≡ₚ vals →
  vals ≠ [] →
  (Qabs_sum vals <= 2 ^ 1022)%Q →
  (Z.of_nat (length vals) <= 2 ^ 52)%Z →
  ∃ q, fdiv_count (tree_sum t) (length vals) = Finite q ∧
       (Qabs (q - Qsum vals / inject_Z (Z.of_nat (length vals)))
        <= (inject_Z (Z.of_nat (length vals)) + 1) * 2 ^ (-52)
           * (Qabs_sum vals / inject_Z (Z.of_nat (length vals)))
           + 2 ^ (-1073))%Q.
Proof.
  intros Hp. apply tree_mean_error.
  - by apply Qsum_Permutation.
  - by apply Qabs_sum_Permutation.
  - rewrite (Permutation_length Hp). lia.
Qed.




(** The model and the machine's binary64 unit agree on the mean, here on
    columns of one to ten values whose sums are exact or rounded. *)
Example mean_matches_machine :
  Forall (λ fractions, model_mean fractions = machine_mean fractions)
    [ [(1, 5); (2, 5)]; [(1, 1); (2, 1); (4, 1)]; [(3, 10)];
      [(1, 10); (1, 10); (1, 10); (1, 10); (1, 10);
       (1, 10); (1, 10); (1, 10); (1, 10); (1, 10)];
      [(3, 10); (3, 10); (3, 10); (3, 10); (3, 10)];
      [(1, 3); (2, 7); (123456789, 1000); (0, 1); (5, 1000000007)] ]%Z.
Proof. repeat constructor. Qed.

(** The mean of 0.2 and 0.4, one missing value between them, is
    0.30000000000000004: the float quotient of the float sum, not the
    rational 3/10. *)
Example mean_of_two_tenths_and_four_tenths :
  series_mean [Num (double (1 # 5)); NA; Num (double (2 # 5))]
  = Ok (Finite (1351079888211149 # 4503599627370496)) ∧
  machine_mean [(1, 5); (2, 5)]%Z = Some (1351079888211149 # 4503599627370496)%Q.
Proof. split; vm_compute; reflexivity. Qed.

(** A total beyond the largest double is an infinity, and so is the mean. *)
Example mean_overflows :
  series_mean [Num (2 ^ 1023)%Q; Num (2 ^ 1023)%Q] = Ok (Inf false) ∧
  Prim2SF (PrimFloat.div (PrimFloat.add 0x1p1023%float 0x1p1023%float) 2%float)
  = S754_infinity false.
Proof. split; vm_compute; reflexivity. Qed.

(** ** A provider for the examples *)

Lemma player_data_filtered_columns_witness :
  ∃ data T',
    getitem_columns sample_raw projected_columns = Ok data ∧
    player_data_filtered sample_lookup sample_statcast
      "2024-04-10" "2024-04-23" "Holliday" "Jackson" "fastball" "curve" "L" = Ok T' ∧
    columns T' = projected_columns ∧
    sublist (rows T') (rows data).
Proof.
  destruct (player_data_filtered_columns sample_lookup sample_statcast
              "2024-04-10" "2024-04-23" "Holliday" "Jackson" "fastball" "curve" "L")
    as (_ & _ & H).
  apply (H 702616%Z sample_raw); [reflexivity|reflexivity|].
  intros c Hc. apply elem_of_app. by left.
Defined.

Example player_data_filtered_sample :
  rows <$> player_data_filtered sample_lookup sample_statcast
             "2024-04-10" "2024-04-23" "Holliday" "Jackson" "fastball" "curve" "L"
  = Ok [ [Str "2024-04-10"; Str "FF"; Str "foul"; NA; Num 95; Str "L";
          NA; NA; NA; NA; NA; NA; NA; NA; NA; NA; NA; NA; NA; NA; Num (3 # 10); NA] ].
Proof. vm_compute. reflexivity. Qed.

(** ** The whiff rates of the script *)

Lemma projected_frame_indices (raw data : DataFrame) :
  getitem_columns raw projected_columns = Ok data →
  column_index data "pitch_type" = Ok 1 ∧
  column_index data "description" = Ok 2 ∧
  column_index data "p_throws" = Ok 5.
Proof.
  intros Hcols%getitem_columns_labels. unfold column_index. rewrite Hcols.
  split_and!; reflexivity.
Qed.

(** With a provider that answers both queries of a whiff rate with the same
    table, every whiff rate the script obtains is a float between 0 and 100. *)
Lemma stint_whiff_rate_range
    (playerid_lookup : string → string → result DataFrame)
    (statcast_batter : string → string → Z → result DataFrame)
    (start_date end_date pitch_type : string) (v : pyfloat) :
  stint_whiff_rate playerid_lookup statcast_batter start_date end_date pitch_type = Ok v →
  ∃ q, v = Finite q ∧ (0 <= q)%Q ∧ (q <= 100)%Q.
Proof.
  unfold stint_whiff_rate, player_data_filtered.
  destruct (player_id _ _ _) as [pid|]; [|done]. cbn [mbind result_bind].
  destruct (statcast_batter _ _ _) as [raw|]; [|done]. cbn [mbind result_bind].
  destruct (getitem_columns raw projected_columns) as [data|] eqn:Hproj; [|done].
  cbn [mbind result_bind].
  destruct (projected_frame_indices raw data Hproj) as (Hp & Hd & Hh).
  rewrite !(filter_engine_spec data _ _ _ _ _ _ Hp Hd Hh).
  cbn [mbind result_bind].
  set (Tn := restrict 5 _ (restrict 2 (descriptions !! "swinging strike") _)).
  set (Td := restrict 5 _ (restrict 2 (descriptions !! "swing") _)).
  assert (Hrows : sublist (rows Tn) (rows Td)).
  { apply restrict_sublist_mono, restrict_subset_codes.
    intros x Hx. right.
    change (x ∈ ["swinging_strike"; "swinging_strike_blocked"; "foul_tip"] ++ ["foul"]).
    apply elem_of_app. by left. }
  destruct (rows Td) as [|r rs] eqn:Htd.
  - by rewrite (ratio_percentage_zero_denominator Tn Td Htd).
  - destruct (ratio_percentage_range Tn Td) as (q & Hq & Hq0 & Hq1 & _).
    + unfold len. rewrite Htd. by apply sublist_length.
    + unfold len. rewrite Htd. simpl. lia.
    + rewrite Hq. intros [= <-]. by exists q.
Qed.

(** * Further properties of the code *)

(** ** Algebra of the filtering step *)

Lemma result_bind_ret {A} (m : result A) : m ≫= Ok = m.
Proof. by destruct m. Qed.

Lemma filter_engine_steps (T : DataFrame) (p d h : string) :
  filter_engine T p d h =
    (group_step pitch_type_groups "pitch_type" p T
       ≫= group_step descriptions "description" d)
      ≫= handedness_step h.
Proof.
  unfold filter_engine, group_step, handedness_step.
  destruct (if dict_contains pitch_type_groups p then _ else _) as [T1|]; [|done].
  cbn [mbind result_bind].
  destruct (if dict_contains descriptions d then _ else _) as [T2|]; [|done].
  cbn [mbind result_bind].
  apply result_bind_ret.
Qed.

Lemma group_step_all_pitch T : group_step pitch_type_groups "pitch_type" "all" T = Ok T.
Proof. reflexivity. Qed.

Lemma group_step_all_description T :
  group_step descriptions "description" "all" T = Ok T.
Proof. reflexivity. Qed.

Lemma handedness_step_all T : handedness_step "all" T = Ok T.
Proof. reflexivity. Qed.

Lemma filter_engine_pitch_only (T : DataFrame) (p : string) :
  filter_engine T p "all" "all" = group_step pitch_type_groups "pitch_type" p T.
Proof.
  rewrite filter_engine_steps.
  destruct (group_step pitch_type_groups "pitch_type" p T) as [T1|]; [|done].
  reflexivity.
Qed.

Lemma filter_engine_desc_only (T : DataFrame) (d : string) :
  filter_engine T "all" d "all" = group_step descriptions "description" d T.
Proof.
  rewrite filter_engine_steps, group_step_all_pitch. cbn [mbind result_bind].
  destruct (group_step descriptions "description" d T) as [T1|]; [|done].
  reflexivity.
Qed.

Lemma filter_engine_hand_only (T : DataFrame) (h : string) :
  filter_engine T "all" "all" h = handedness_step h T.
Proof. by rewrite filter_engine_steps, group_step_all_pitch. Qed.

(** X1: Applying the three selectors one call at a time, in the order of the
    code, is the same as one call with the three of them, errors included. *)
Theorem filter_engine_one_at_a_time (T : DataFrame) (p d h : string) :
  (T1 ← filter_engine T p "all" "all";
   T2 ← filter_engine T1 "all" d "all";
   filter_engine T2 "all" "all" h)
  = filter_engine T p d h.
Proof.
  rewrite filter_engine_pitch_only, (filter_engine_steps T p d h).
  destruct (group_step pitch_type_groups "pitch_type" p T) as [T1|]; [|done].
  cbn [mbind result_bind]. rewrite filter_engine_desc_only.
  destruct (group_step descriptions "description" d T1) as [T2|]; [|done].
  cbn [mbind result_bind]. apply filter_engine_hand_only.
Qed.

Lemma group_step_restrict (tbl : gmap string (list string)) (name sel : string)
    (df : DataFrame) (i : nat) :
  (is_Some (tbl !! sel) → column_index df name = Ok i) →
  group_step tbl name sel df = Ok (restrict i (tbl !! sel) df).
Proof.
  intros Hi. unfold group_step.
  destruct (tbl !! sel) as [cs|] eqn:Hsel.
  - rewrite (dict_contains_Some _ _ _ Hsel).
    unfold getitem, dict_getitem. rewrite Hi, Hsel by eauto.
    cbn [mbind result_bind].
    unfold getitem_mask. by rewrite isin_column, select_rows_map.
  - by rewrite (dict_contains_None _ _ Hsel).
Qed.

Lemma handedness_step_restrict (h : string) (df : DataFrame) (i : nat) :
  (is_Some (handedness_codes h) → column_index df "p_throws" = Ok i) →
  handedness_step h df = Ok (restrict i (handedness_codes h) df).
Proof.
  intros Hi. unfold handedness_step, handedness_codes in *.
  destruct (bool_decide (h ∈ ["L"; "R"])); [|done].
  unfold getitem. rewrite Hi by eauto. cbn [mbind result_bind].
  unfold getitem_mask. by rewrite series_eq_column, select_rows_map.
Qed.

Lemma group_step_inv (tbl : gmap string (list string)) (name sel : string)
    (df df' : DataFrame) :
  group_step tbl name sel df = Ok df' →
  ∃ i, (is_Some (tbl !! sel) → column_index df name = Ok i) ∧
       df' = restrict i (tbl !! sel) df.
Proof.
  intros Hstep.
  destruct (column_index df name) as [i|e] eqn:Hi.
  - exists i. split; [done|].
    rewrite (group_step_restrict tbl name sel df i) in Hstep by done.
    by injection Hstep.
  - destruct (tbl !! sel) as [cs|] eqn:Hsel.
    + unfold group_step, getitem in Hstep.
      by rewrite (dict_contains_Some _ _ _ Hsel), Hi in Hstep.
    + exists 0. split; [by intros [? ?]|].
      unfold group_step in Hstep.
      rewrite (dict_contains_None _ _ Hsel) in Hstep. by injection Hstep.
Qed.

Lemma handedness_step_inv (h : string) (df df' : DataFrame) :
  handedness_step h df = Ok df' →
  ∃ i, (is_Some (handedness_codes h) → column_index df "p_throws" = Ok i) ∧
       df' = restrict i (handedness_codes h) df.
Proof.
  intros Hstep.
  destruct (column_index df "p_throws") as [i|e] eqn:Hi.
  - exists i. split; [done|].
    rewrite (handedness_step_restrict h df i) in Hstep by done.
    by injection Hstep.
  - unfold handedness_step, handedness_codes, getitem in *.
    destruct (bool_decide (h ∈ ["L"; "R"])).
    + by rewrite Hi in Hstep.
    + exists 0. split; [by intros [? ?]|]. by injection Hstep.
Qed.

(** What a successful call computed, read backwards: the columns it needed
    were there, and the result is the three restrictions of the table. *)
Lemma filter_engine_inv (T T' : DataFrame) (p d h : string) :
  filter_engine T p d h = Ok T' →
  ∃ ip id ih,
    (is_Some (pitch_type_groups !! p) → column_index T "pitch_type" = Ok ip) ∧
    (is_Some (descriptions !! d) → column_index T "description" = Ok id) ∧
    (is_Some (handedness_codes h) → column_index T "p_throws" = Ok ih) ∧
    T' = restrict ih (handedness_codes h)
           (restrict id (descriptions !! d)
              (restrict ip (pitch_type_groups !! p) T)).
Proof.
  rewrite filter_engine_steps.
  destruct (group_step pitch_type_groups "pitch_type" p T) as [T1|] eqn:H1; [|done].
  cbn [mbind result_bind].
  destruct (group_step descriptions "description" d T1) as [T2|] eqn:H2; [|done].
  cbn [mbind result_bind]. intros H3.
  apply group_step_inv in H1 as (ip & Hp & ->).
  apply group_step_inv in H2 as (id & Hd & ->).
  apply handedness_step_inv in H3 as (ih & Hh & ->).
  exists ip, id, ih. split_and!; [done| | |done].
  - intros Hs. specialize (Hd Hs). unfold column_index in *.
    by rewrite restrict_columns in Hd.
  - intros Hs. specialize (Hh Hs). unfold column_index in *.
    by rewrite !restrict_columns in Hh.
Qed.

Lemma filter_engine_restrict (T : DataFrame) (p d h : string) (ip id ih : nat) :
  (is_Some (pitch_type_groups !! p) → column_index T "pitch_type" = Ok ip) →
  (is_Some (descriptions !! d) → column_index T "description" = Ok id) →
  (is_Some (handedness_codes h) → column_index T "p_throws" = Ok ih) →
  filter_engine T p d h =
    Ok (restrict ih (handedness_codes h)
         (restrict id (descriptions !! d)
           (restrict ip (pitch_type_groups !! p) T))).
Proof.
  intros Hp Hd Hh. rewrite filter_engine_steps.
  rewrite (group_step_restrict _ _ _ _ ip) by done. cbn [mbind result_bind].
  rewrite (group_step_restrict _ _ _ _ id); cbn [mbind result_bind].
  - apply handedness_step_restrict. intros Hs. specialize (Hh Hs).
    unfold column_index in *. by rewrite !restrict_columns.
  - intros Hs. specialize (Hd Hs).
    unfold column_index in *. by rewrite restrict_columns.
Qed.

Lemma restrict_fixed i codes (df : DataFrame) :
  Forall (λ r, keeps i codes r = true) (rows df) → restrict i codes df = df.
Proof.
  intros Hall. destruct codes as [cs|]; [|done].
  destruct df as [cols rs]. unfold restrict. simpl in *. f_equal.
  induction Hall as [|r rs Hr _ IH]; [done|].
  rewrite filter_cons_True by done. by rewrite IH.
Qed.

Lemma restrict_keeps i codes (df : DataFrame) :
  Forall (λ r, keeps i codes r = true) (rows (restrict i codes df)).
Proof.
  rewrite restrict_rows. apply Forall_forall.
  by intros r [Hr _]%list_elem_of_filter.
Qed.

Lemma restrict_Forall {P : Row → Prop} i codes (df : DataFrame) :
  Forall P (rows df) → Forall P (rows (restrict i codes df)).
Proof.
  rewrite restrict_rows, !Forall_forall.
  intros Hall r [_ Hr]%list_elem_of_filter. by apply Hall.
Qed.

(** X2: the filter is idempotent: a table it returned is returned unchanged
    when filtered again with the same selectors. *)
Theorem filter_engine_idempotent (T T' : DataFrame) (p d h : string) :
  filter_engine T p d h = Ok T' → filter_engine T' p d h = Ok T'.
Proof.
  intros Hrun.
  destruct (filter_engine_inv _ _ _ _ _ Hrun) as (ip & id & ih & Hp & Hd & Hh & HT').
  assert (Hcols : columns T' = columns T).
  { rewrite HT'. by rewrite !restrict_columns. }
  rewrite (filter_engine_restrict T' p d h ip id ih);
    [|intros Hs; unfold column_index in *; rewrite Hcols; auto..].
  f_equal.
  assert (H1 : Forall (λ r, keeps ip (pitch_type_groups !! p) r = true) (rows T')).
  { rewrite HT'. do 2 apply restrict_Forall. apply restrict_keeps. }
  assert (H2 : Forall (λ r, keeps id (descriptions !! d) r = true) (rows T')).
  { rewrite HT'. apply restrict_Forall. apply restrict_keeps. }
  assert (H3 : Forall (λ r, keeps ih (handedness_codes h) r = true) (rows T')).
  { rewrite HT'. apply restrict_keeps. }
  rewrite (restrict_fixed ip _ T' H1), (restrict_fixed id _ T' H2).
  by apply restrict_fixed.
Qed.

Lemma filter_engine_idempotent_witness :
  ∃ T', filter_engine sample_table "fastball" "swing" "L" = Ok T' ∧
        filter_engine T' "fastball" "swing" "L" = Ok T'.
Proof.
  eexists. split; [reflexivity|].
  apply (filter_engine_idempotent sample_table). reflexivity.
Defined.

Lemma restrict_comm i j c c' (df : DataFrame) :
  restrict i c (restrict j c' df) = restrict j c' (restrict i c df).
Proof.
  destruct c as [cs|], c' as [cs'|]; try done.
  unfold restrict. simpl. f_equal.
  rewrite !list_filter_filter. apply list_filter_iff. tauto.
Qed.

(** X3: The order in which the three dimensions are applied does not matter:
    handedness first, then outcome, then pitch type gives the table of the
    single call. *)
Theorem filter_engine_any_order (T : DataFrame) (p d h : string) (ip id ih : nat) :
  column_index T "pitch_type" = Ok ip →
  column_index T "description" = Ok id →
  column_index T "p_throws" = Ok ih →
  (T1 ← filter_engine T "all" "all" h;
   T2 ← filter_engine T1 "all" d "all";
   filter_engine T2 p "all" "all")
  = filter_engine T p d h.
Proof.
  intros Hp Hd Hh.
  destruct no_group_all as (Hpa & Hda & Hha).
  assert (Hcol : ∀ (df : DataFrame) name i, columns df = columns T →
            column_index T name = Ok i → column_index df name = Ok i).
  { intros df name i Hc Hi. unfold column_index in *. by rewrite Hc. }
  rewrite (filter_engine_restrict T p d h ip id ih) by done.
  rewrite (filter_engine_restrict T "all" "all" h ip id ih) by done.
  cbn [mbind result_bind]. rewrite Hpa, Hda, !restrict_None.
  set (T1 := restrict ih (handedness_codes h) T).
  rewrite (filter_engine_restrict T1 "all" d "all" ip id ih);
    [|intros _; apply Hcol; [apply restrict_columns|done]..].
  cbn [mbind result_bind]. rewrite Hpa, Hha, !restrict_None.
  set (T2 := restrict id (descriptions !! d) T1).
  rewrite (filter_engine_restrict T2 p "all" "all" ip id ih);
    [|intros _; apply Hcol; [unfold T2, T1; by rewrite !restrict_columns|done]..].
  rewrite Hda, Hha, !restrict_None. f_equal. unfold T2, T1.
  by rewrite (restrict_comm ip id), (restrict_comm ip ih), (restrict_comm id ih).
Qed.

Lemma filter_engine_any_order_witness :
  (T1 ← filter_engine sample_table "all" "all" "R";
   T2 ← filter_engine T1 "all" "foul" "all";
   filter_engine T2 "breaking" "all" "all")
  = filter_engine sample_table "breaking" "foul" "R".
Proof. apply (filter_engine_any_order sample_table _ _ _ 1 2 5); reflexivity. Defined.

(** ** Counting rows by code *)

Lemma count_codes_app_disjoint i (l1 l2 : list string) (T : DataFrame) :
  (∀ x, x ∈ l1 → x ∉ l2) →
  count_codes i (l1 ++ l2) T = count_codes i l1 T + count_codes i l2 T.
Proof.
  intros Hdisj. unfold count_codes.
  induction (rows T) as [|r rs IH]; [done|].
  rewrite !filter_cons.
  assert (Hexcl : ¬ (has_code i l1 r = true ∧ has_code i l2 r = true)).
  { intros [(x & Hx & H1)%has_code_true (y & Hy & H2)%has_code_true].
    rewrite Hx in Hy. injection Hy as <-. by apply (Hdisj x). }
  pose proof (has_code_app i l1 l2 r) as Happ.
  repeat case_decide; simpl; first [lia | exfalso].
  all: destruct (has_code i l1 r), (has_code i l2 r); simpl in *;
    first [congruence | by apply Hexcl].
Qed.

Lemma count_codes_le i (l : list string) (T : DataFrame) :
  (count_codes i l T ≤ len T)%nat.
Proof. apply length_filter. Qed.

Lemma len_restrict_Some i cs (T : DataFrame) :
  len (restrict i (Some cs) T) = count_codes i cs T.
Proof. reflexivity. Qed.

(** X4: The swings of any selection split into balls in play, swinging strikes
    and fouls: with the same pitch-type and handedness selectors, the "swing"
    table has as many rows as the "in play", "swinging strike" and "foul"
    tables together. *)
Theorem swing_rows_split (T : DataFrame) (p h : string) (ip id ih : nat) :
  column_index T "pitch_type" = Ok ip →
  column_index T "description" = Ok id →
  column_index T "p_throws" = Ok ih →
  ∃ Tsw Tip Tss Tfl,
    filter_engine T p "swing" h = Ok Tsw ∧
    filter_engine T p "in play" h = Ok Tip ∧
    filter_engine T p "swinging strike" h = Ok Tss ∧
    filter_engine T p "foul" h = Ok Tfl ∧
    len Tsw = len Tip + len Tss + len Tfl.
Proof.
  intros Hp Hd Hh.
  rewrite !(filter_engine_spec T _ _ _ _ _ _ Hp Hd Hh).
  do 4 eexists. split_and!; [reflexivity..|].
  rewrite !(restrict_comm ih id).
  set (B := restrict ih _ (restrict ip _ T)).
  change (descriptions !! "swing")
    with (Some (["hit_into_play"] ++
                ["swinging_strike"; "swinging_strike_blocked"; "foul_tip"] ++
                ["foul"])).
  change (descriptions !! "in play") with (Some ["hit_into_play"]).
  change (descriptions !! "swinging strike")
    with (Some ["swinging_strike"; "swinging_strike_blocked"; "foul_tip"]).
  change (descriptions !! "foul") with (Some ["foul"]).
  rewrite !len_restrict_Some.
  rewrite count_codes_app_disjoint, count_codes_app_disjoint; [lia|..].
  - intros x Hx Hf. apply list_elem_of_singleton in Hf as ->.
    by repeat (apply elem_of_cons in Hx as [Hx|Hx]; [done|]);
      apply elem_of_nil in Hx.
  - intros x ->%list_elem_of_singleton Hx.
    by repeat (apply elem_of_cons in Hx as [Hx|Hx]; [done|]);
      apply elem_of_nil in Hx.
Qed.

Lemma swing_rows_split_witness :
  ∃ Tsw Tip Tss Tfl,
    filter_engine sample_table "all" "swing" "all" = Ok Tsw ∧
    filter_engine sample_table "all" "in play" "all" = Ok Tip ∧
    filter_engine sample_table "all" "swinging strike" "all" = Ok Tss ∧
    filter_engine sample_table "all" "foul" "all" = Ok Tfl ∧
    len Tsw = len Tip + len Tss + len Tfl.
Proof. apply (swing_rows_split sample_table "all" "all" 1 2 5); reflexivity. Defined.

(** X5: The three pitch-type groups never share a row: with the same outcome and
    handedness selectors, the "fastball", "breaking" and "offspeed" tables
    have together at most as many rows as the table with no pitch-type
    selector, and exactly as many when every row of that table carries one
    of the ten grouped pitch codes. *)
Theorem pitch_type_rows_split (T : DataFrame) (d h : string) (ip id ih : nat) :
  column_index T "pitch_type" = Ok ip →
  column_index T "description" = Ok id →
  column_index T "p_throws" = Ok ih →
  ∃ Tall Tfb Tbr Tos,
    filter_engine T "all" d h = Ok Tall ∧
    filter_engine T "fastball" d h = Ok Tfb ∧
    filter_engine T "breaking" d h = Ok Tbr ∧
    filter_engine T "offspeed" d h = Ok Tos ∧
    (len Tfb + len Tbr + len Tos ≤ len Tall)%nat ∧
    (Forall (λ r, has_code ip ["FF"; "SI"; "FC"; "SL"; "CU"; "ST"; "SV"; "KC"; "FS"; "CH"] r
                  = true) (rows Tall) →
     len Tfb + len Tbr + len Tos = len Tall).
Proof.
  intros Hp Hd Hh.
  rewrite !(filter_engine_spec T _ _ _ _ _ _ Hp Hd Hh).
  do 4 eexists. split_and!; [reflexivity..| |].
  all: rewrite !(restrict_comm id ip), !(restrict_comm ih ip).
  all: change (pitch_type_groups !! "all") with (@None (list string)).
  all: rewrite restrict_None.
  all: set (B := restrict ih _ (restrict id _ T)).
  all: change (pitch_type_groups !! "fastball") with (Some ["FF"; "SI"; "FC"]).
  all: change (pitch_type_groups !! "breaking")
         with (Some ["SL"; "CU"; "ST"; "SV"; "KC"]).
  all: change (pitch_type_groups !! "offspeed") with (Some ["FS"; "CH"]).
  all: rewrite !len_restrict_Some.
  all: assert (Hsum : count_codes ip (["FF"; "SI"; "FC"] ++
                        ["SL"; "CU"; "ST"; "SV"; "KC"] ++ ["FS"; "CH"]) B
                      = count_codes ip ["FF"; "SI"; "FC"] B
                        + count_codes ip ["SL"; "CU"; "ST"; "SV"; "KC"] B
                        + count_codes ip ["FS"; "CH"] B).
  1, 3: rewrite count_codes_app_disjoint, count_codes_app_disjoint; [lia|..].
  1-4: intros x Hx Hy;
       repeat (apply elem_of_cons in Hx as [->|Hx];
         [by repeat (apply elem_of_cons in Hy as [Hy|Hy]; [done|]);
             apply elem_of_nil in Hy|]);
       by apply elem_of_nil in Hx.
  - rewrite <- Hsum. apply count_codes_le.
  - intros Hall. rewrite <- Hsum. unfold count_codes, len.
    f_equal. clear Hsum. simpl app.
    induction Hall as [|r rs Hr _ IH]; [done|].
    rewrite filter_cons_True by done. by rewrite IH.
Qed.

Lemma pitch_type_rows_split_witness :
  ∃ Tall Tfb Tbr Tos,
    filter_engine sample_table "all" "swing" "all" = Ok Tall ∧
    filter_engine sample_table "fastball" "swing" "all" = Ok Tfb ∧
    filter_engine sample_table "breaking" "swing" "all" = Ok Tbr ∧
    filter_engine sample_table "offspeed" "swing" "all" = Ok Tos ∧
    len Tfb + len Tbr + len Tos = len Tall.
Proof.
  destruct (pitch_type_rows_split sample_table "swing" "all" 1 2 5 eq_refl eq_refl eq_refl)
    as (Tall & Tfb & Tbr & Tos & H1 & H2 & H3 & H4 & _ & Heq).
  exists Tall, Tfb, Tbr, Tos. split_and!; [done..|].
  apply Heq. injection H1 as <-. repeat constructor.
Defined.

(** ** The projection and the provider *)

Lemma index_of_lookup (name : string) (cols : list string) (j : nat) :
  index_of name cols = Some j → cols !! j = Some name.
Proof.
  revert j. induction cols as [|c cols IH]; intros j; [done|]. simpl.
  destruct (decide (c = name)) as [->|_]; [by intros [= <-]|].
  destruct (index_of name cols) as [j'|]; [|done].
  intros [= <-]. by apply IH.
Qed.

Lemma column_indices_Forall2 (df : DataFrame) (names : list string) (idx : list nat) :
  column_indices df names = Ok idx →
  Forall2 (λ n i, index_of n (columns df) = Some i) names idx.
Proof.
  revert idx. induction names as [|n names IH]; intros idx; simpl.
  - intros [= <-]. constructor.
  - unfold column_index. destruct (index_of n (columns df)) as [i|] eqn:Hi; [|done].
    cbn [mbind result_bind].
    destruct (column_indices df names) as [rest|]; [|done].
    intros [= <-]. constructor; [done|]. by apply IH.
Qed.

(** Under a projected label the projected table has the cells of the
    provider's table. *)
Lemma projected_cell (df : DataFrame) (names : list string) (idx : list nat)
    (name : string) (j i : nat) (r : Row) :
  column_indices df names = Ok idx →
  index_of name names = Some j →
  index_of name (columns df) = Some i →
  cell_at j (map (λ i, cell_at i r) idx) = cell_at i r.
Proof.
  intros Hidx Hj Hi. apply column_indices_Forall2 in Hidx.
  apply index_of_lookup in Hj.
  destruct (Forall2_lookup_l _ _ _ _ _ Hidx Hj) as (i' & Hi' & Hname).
  rewrite Hi in Hname. injection Hname as <-.
  unfold cell_at at 1.
  change (map (λ i, cell_at i r) idx) with ((λ i, cell_at i r) <$> idx).
  unfold Row. by rewrite list_lookup_fmap, Hi'.
Qed.

Lemma filter_fmap_pre {A B} (f : A → B) (P : B → Prop) `{!∀ y, Decision (P y)}
    (l : list A) :
  filter P (f <$> l) = f <$> filter (λ x, P (f x)) l.
Proof.
  induction l as [|a l IH]; [done|].
  rewrite fmap_cons, !filter_cons.
  destruct (decide (P (f a))); rewrite ?fmap_cons, IH; done.
Qed.

Lemma restrict_projection (cols : list string) (π : Row → Row) (rs : list Row)
    (j i : nat) (codes : option (list string)) :
  (∀ r, cell_at j (π r) = cell_at i r) →
  restrict j codes (mkDataFrame cols (map π rs))
  = mkDataFrame cols (map π (rows (restrict i codes (mkDataFrame cols rs)))).
Proof.
  intros Hcell. destruct codes as [cs|]; [|done].
  unfold restrict. simpl. f_equal.
  change (map π rs) with (π <$> rs). rewrite filter_fmap_pre.
  change (map π ?l) with (π <$> l). f_equal.
  apply list_filter_iff. intros r. unfold has_code. by rewrite Hcell.
Qed.

(** X6: Projecting and filtering commute: the rows [player_data_filtered] keeps
    are the projections of the rows the same selectors keep in the
    provider's full table. *)
Theorem projection_commutes_with_filter (raw data : DataFrame) (p d h : string) :
  getitem_columns raw projected_columns = Ok data →
  filter_engine data p d h
  = (T ← filter_engine raw p d h; getitem_columns T projected_columns).
Proof.
  intros Hproj. unfold getitem_columns in *.
  destruct (column_indices raw projected_columns) as [idx|] eqn:Hidx; [|done].
  cbn [mbind result_bind] in Hproj. injection Hproj as <-.
  set (π := λ r : Row, map (λ i, cell_at i r) idx).
  assert (Hraw : ∀ name, name ∈ projected_columns →
            ∃ j i, index_of name projected_columns = Some j ∧
                   index_of name (columns raw) = Some i ∧
                   ∀ r, cell_at j (π r) = cell_at i r).
  { intros name Hin.
    destruct (index_of_elem name projected_columns Hin) as [j Hj].
    pose proof (column_indices_Forall2 _ _ _ Hidx) as Hall.
    destruct (Forall2_lookup_l _ _ _ _ _ Hall (index_of_lookup _ _ _ Hj))
      as (i & _ & Hi).
    exists j, i. split; [done|]. split; [done|].
    intros r. by apply (projected_cell raw projected_columns idx name). }
  destruct (Hraw "pitch_type") as (jp & ip & Hjp & Hip & Hcp);
    [by do 1 right; left|].
  destruct (Hraw "description") as (jd & id & Hjd & Hid & Hcd);
    [by do 2 right; left|].
  destruct (Hraw "p_throws") as (jh & ih & Hjh & Hih & Hch);
    [by do 5 right; left|].
  rewrite (filter_engine_spec raw p d h ip id ih);
    [|unfold column_index; by rewrite ?Hip, ?Hid, ?Hih..].
  cbn [mbind result_bind].
  rewrite (filter_engine_spec _ p d h jp jd jh);
    [|unfold column_index; cbn [columns]; by rewrite ?Hjp, ?Hjd, ?Hjh..].
  assert (Hidx' : ∀ T : DataFrame, columns T = columns raw →
            column_indices T projected_columns = Ok idx).
  { intros T HT. rewrite <- Hidx. clear -HT.
    induction projected_columns as [|n ns IH]; [done|].
    simpl. unfold column_index. by rewrite HT, IH. }
  rewrite Hidx' by (by rewrite !restrict_columns).
  cbn [mbind result_bind]. f_equal.
  destruct raw as [rcols rrows]. cbn [rows columns].
  rewrite (restrict_projection _ π rrows jp ip) by done.
  rewrite (restrict_projection _ π _ jd id) by done.
  rewrite (restrict_projection _ π _ jh ih) by done.
  f_equal. f_equal.
  destruct (handedness_codes h), (descriptions !! d), (pitch_type_groups !! p); done.
Qed.

Lemma projection_commutes_with_filter_witness :
  ∃ data,
    getitem_columns sample_raw projected_columns = Ok data ∧
    filter_engine data "fastball" "swing" "R"
    = (T ← filter_engine sample_raw "fastball" "swing" "R";
       getitem_columns T projected_columns).
Proof.
  eexists. split; [reflexivity|].
  apply (projection_commutes_with_filter sample_raw). reflexivity.
Defined.

Lemma index_of_Some_elem (name : string) (cols : list string) (j : nat) :
  index_of name cols = Some j → name ∈ cols.
Proof.
  intros Hj%index_of_lookup. by apply list_elem_of_lookup_2 in Hj.
Qed.

Lemma column_indices_missing (df : DataFrame) (names : list string) :
  ¬ (names ⊆ columns df) →
  ∃ k, k ∈ names ∧ (k ∉ columns df) ∧ column_indices df names = Raise (KeyError k).
Proof.
  induction names as [|n names IH]; intros Hnot.
  - destruct Hnot. by intros x ?%elem_of_nil.
  - simpl. unfold column_index.
    destruct (index_of n (columns df)) as [i|] eqn:Hi.
    + cbn [mbind result_bind].
      destruct IH as (k & Hk & Hout & ->).
      * intros Hsub. apply Hnot. intros x Hx.
        apply elem_of_cons in Hx as [->|Hx]; [|by apply Hsub].
        by apply index_of_Some_elem in Hi.
      * exists k. split; [by right|]. done.
    + exists n. split; [by left|]. split; [|done].
      intros Hin. apply index_of_elem in Hin as [? Hsome]. congruence.
Qed.

Lemma filter_engine_all_identity_aux (T : DataFrame) :
  filter_engine T "all" "all" "all" = Ok T.
Proof.
  rewrite filter_engine_steps, group_step_all_pitch. cbn [mbind result_bind].
  by rewrite group_step_all_description.
Qed.

Section ProviderErrors.
Variable playerid_lookup : string → string → result DataFrame.
Variable statcast_batter : string → string → Z → result DataFrame.

(** X7: [player_id] returns only on a unique match: when the directory answers
    with no row or with several rows the conversion raises [TypeError], when
    the answer has no [key_mlbam] column the lookup raises [KeyError], and a
    failure of the directory itself is passed on. *)
Theorem player_id_unique_match (last_name first_name : string) :
  (∀ e, playerid_lookup last_name first_name = Raise e →
        player_id playerid_lookup last_name first_name = Raise e) ∧
  (∀ found, playerid_lookup last_name first_name = Ok found →
     ("key_mlbam" ∉ columns found →
        player_id playerid_lookup last_name first_name = Raise (KeyError "key_mlbam")) ∧
     ("key_mlbam" ∈ columns found → length (rows found) ≠ 1 →
        player_id playerid_lookup last_name first_name = Raise TypeError) ∧
     (∀ playerid, player_id playerid_lookup last_name first_name = Ok playerid →
        "key_mlbam" ∈ columns found ∧ length (rows found) = 1)).
Proof.
  split.
  - intros e He. unfold player_id. by rewrite He.
  - intros found Hfound. unfold player_id, getitem, column_index.
    rewrite Hfound. cbn [mbind result_bind].
    split_and!.
    + intros Hout. destruct (index_of "key_mlbam" (columns found)) eqn:Hi; [|done].
      by apply index_of_Some_elem in Hi.
    + intros [i ->]%index_of_elem Hlen. cbn [mbind result_bind].
      destruct (rows found) as [|r [|r' rs]];
        [done|by destruct Hlen|by simpl; destruct (cell_at i r)].
    + intros pid.
      destruct (index_of "key_mlbam" (columns found)) as [i|] eqn:Hi; [|done].
      cbn [mbind result_bind]. intros Hint.
      split; [by apply index_of_Some_elem in Hi|].
      destruct (rows found) as [|r [|r' rs]]; simpl in Hint; [done|done|].
      by destruct (cell_at i r).
Qed.

(** X8: With the default selectors [player_data_filtered] is the projection of
    [player_data_all_columns] on the 22 columns, errors included; with any
    selectors it is that projection followed by the filtering step. *)
Theorem player_data_filtered_all_columns
    (start_date end_date last_name first_name p d h : string) :
  player_data_filtered playerid_lookup statcast_batter
    start_date end_date last_name first_name "all" "all" "all"
  = (raw ← player_data_all_columns playerid_lookup statcast_batter
             start_date end_date last_name first_name;
     getitem_columns raw projected_columns) ∧
  player_data_filtered playerid_lookup statcast_batter
    start_date end_date last_name first_name p d h
  = (data ← player_data_filtered playerid_lookup statcast_batter
              start_date end_date last_name first_name "all" "all" "all";
     filter_engine data p d h).
Proof.
  unfold player_data_filtered, player_data_all_columns.
  destruct (player_id _ _ _) as [pid|]; [|done]. cbn [mbind result_bind].
  destruct (statcast_batter _ _ _) as [raw|]; [|done]. cbn [mbind result_bind].
  destruct (getitem_columns raw projected_columns) as [data|]; [|done].
  cbn [mbind result_bind]. by rewrite filter_engine_all_identity_aux.
Qed.

(** X9: When the provider's table lacks one of the 22 columns the call raises
    [KeyError] for a missing label, whatever the selectors. *)
Theorem player_data_filtered_missing_column
    (start_date end_date last_name first_name p d h : string)
    (playerid : Z) (raw : DataFrame) :
  player_id playerid_lookup last_name first_name = Ok playerid →
  statcast_batter start_date end_date playerid = Ok raw →
  ¬ (projected_columns ⊆ columns raw) →
  ∃ k, k ∈ projected_columns ∧ (k ∉ columns raw) ∧
       player_data_filtered playerid_lookup statcast_batter
         start_date end_date last_name first_name p d h = Raise (KeyError k).
Proof.
  intros Hpid Hraw Hnot.
  destruct (column_indices_missing raw projected_columns Hnot) as (k & Hk & Hout & Hidx).
  exists k. split; [done|]. split; [done|].
  unfold player_data_filtered, getitem_columns.
  rewrite Hpid. cbn [mbind result_bind]. rewrite Hraw. cbn [mbind result_bind].
  by rewrite Hidx.
Qed.
End ProviderErrors.

(** ** The aggregates of the script *)

Lemma projection_total (raw : DataFrame) :
  projected_columns ⊆ columns raw →
  ∃ data, getitem_columns raw projected_columns = Ok data ∧
          columns data = projected_columns.
Proof.
  intros Hsub. unfold getitem_columns.
  destruct (column_indices_total raw projected_columns Hsub) as [idx ->].
  eexists. split; reflexivity.
Qed.


Section ScriptFacts.
Variable playerid_lookup : string → string → result DataFrame.
Variable statcast_batter : string → string → Z → result DataFrame.

(** X10: A whiff rate of the script either aborts or is a percentage: once the
    provider has answered with a table that has the 22 columns, the
    expression raises [ZeroDivisionError] when no pitch of the selected type
    was swung at, and otherwise returns a float of [0, 100] within half a
    hundredth of 100 times swinging strikes over swings. *)
Theorem stint_whiff_rate_outcome (start_date end_date pitch_type : string)
    (playerid : Z) (raw : DataFrame) :
  player_id playerid_lookup "Holliday" "Jackson" = Ok playerid →
  statcast_batter start_date end_date playerid = Ok raw →
  projected_columns ⊆ columns raw →
  ∃ data Tss Tsw,
    getitem_columns raw projected_columns = Ok data ∧
    filter_engine data pitch_type "swinging strike" "all" = Ok Tss ∧
    filter_engine data pitch_type "swing" "all" = Ok Tsw ∧
    (rows Tsw = [] →
       stint_whiff_rate playerid_lookup statcast_batter start_date end_date pitch_type
       = Raise ZeroDivisionError) ∧
    (rows Tsw ≠ [] →
       ∃ q, stint_whiff_rate playerid_lookup statcast_batter
              start_date end_date pitch_type = Ok (Finite q) ∧
            (0 <= q)%Q ∧ (q <= 100)%Q ∧
            (Qabs (q - 100 * (inject_Z (Z.of_nat (len Tss)) /
                              inject_Z (Z.of_nat (len Tsw))))
             <= (1 # 200) + 2 ^ (-45))%Q).
Proof.
  intros Hpid Hraw Hsub.
  destruct (projection_total raw Hsub) as (data & Hdata & Hcols).
  destruct (projected_frame_indices raw data Hdata) as (Hp & Hd & Hh).
  pose proof (filter_engine_spec data pitch_type "swinging strike" "all" 1 2 5
                Hp Hd Hh) as Hss.
  pose proof (filter_engine_spec data pitch_type "swing" "all" 1 2 5
                Hp Hd Hh) as Hsw.
  set (Tss := restrict 5 _ (restrict 2 (descriptions !! "swinging strike") _)) in Hss.
  set (Tsw := restrict 5 _ (restrict 2 (descriptions !! "swing") _)) in Hsw.
  exists data, Tss, Tsw. split_and!; [done..| |].
  all: unfold stint_whiff_rate, player_data_filtered.
  all: rewrite Hpid; cbn [mbind result_bind].
  all: rewrite Hraw; cbn [mbind result_bind].
  all: rewrite Hdata; cbn [mbind result_bind].
  all: rewrite Hss, Hsw; cbn [mbind result_bind].
  - apply ratio_percentage_zero_denominator.
  - intros Hne. apply ratio_percentage_range; unfold len.
    + apply sublist_length. unfold Tss, Tsw.
      apply restrict_sublist_mono, restrict_subset_codes.
      intros x Hx. right.
      change (x ∈ ["swinging_strike"; "swinging_strike_blocked"; "foul_tip"] ++ ["foul"]).
      apply elem_of_app. by left.
    + destruct (rows Tsw); [done|simpl; lia].
Qed.

End ScriptFacts.

Lemma sample_raw_has_columns : projected_columns ⊆ columns sample_raw.
Proof. intros c Hc. apply elem_of_app. by left. Qed.

Lemma stint_whiff_rate_outcome_witness :
  stint_whiff_rate sample_lookup sample_statcast "2024-04-10" "2024-04-23" "breaking"
  = Raise ZeroDivisionError ∧
  ∃ q, stint_whiff_rate sample_lookup sample_statcast "2024-04-10" "2024-04-23" "fastball"
       = Ok (Finite q) ∧ (0 <= q)%Q ∧ (q <= 100)%Q.
Proof.
  split.
  - destruct (stint_whiff_rate_outcome sample_lookup sample_statcast
                "2024-04-10" "2024-04-23" "breaking" 702616%Z sample_raw
                eq_refl eq_refl sample_raw_has_columns)
      as (data & Tss & Tsw & H1 & H2 & H3 & Hzero & _).
    apply Hzero.
    vm_compute in H1. injection H1 as <-.
    vm_compute in H3. injection H3 as <-. reflexivity.
  - destruct (stint_whiff_rate_outcome sample_lookup sample_statcast
                "2024-04-10" "2024-04-23" "fastball" 702616%Z sample_raw
                eq_refl eq_refl sample_raw_has_columns)
      as (data & Tss & Tsw & H1 & H2 & H3 & _ & Hval).
    destruct Hval as (q & Hq & Hq0 & Hq1 & _).
    + vm_compute in H1. injection H1 as <-.
      vm_compute in H3. injection H3 as <-. discriminate.
    + exists q. split; [exact Hq|]. split; [exact Hq0|exact Hq1].
Defined.


(** ** The ratio-percentage as a function of the two counts *)

Local Open Scope Q_scope.

Lemma ilog2_unique (x : Q) (e : Z) :
  0 < x → 2 ^ e <= x → x < 2 ^ (e + 1) → ilog2 x = e.
Proof.
  intros Hx Hlo Hhi. destruct (ilog2_spec x Hx) as [Hlo' Hhi'].
  assert (H1 : 2 ^ e < 2 ^ (ilog2 x + 1)) by (eapply Qle_lt_trans; eassumption).
  assert (H2 : 2 ^ ilog2 x < 2 ^ (e + 1)) by (eapply Qle_lt_trans; eassumption).
  apply Qpower_lt_compat_l_inv in H1; [|done].
  apply Qpower_lt_compat_l_inv in H2; [|done]. lia.
Qed.

Lemma ilog2_Qeq (x y : Q) : x == y → 0 < x → ilog2 x = ilog2 y.
Proof.
  intros Hxy Hx. assert (Hy : 0 < y) by (by rewrite <- Hxy).
  destruct (ilog2_spec y Hy) as [Hlo Hhi].
  apply ilog2_unique; [done|by rewrite Hxy..].
Qed.

Lemma ilog2_mono (x y : Q) : 0 < x → x <= y → (ilog2 x <= ilog2 y)%Z.
Proof.
  intros Hx Hxy. assert (Hy : 0 < y) by (eapply Qlt_le_trans; eassumption).
  destruct (ilog2_spec x Hx) as [Hlo _]. destruct (ilog2_spec y Hy) as [_ Hhi].
  assert (H : 2 ^ ilog2 x < 2 ^ (ilog2 y + 1)).
  { eapply Qle_lt_trans; [exact Hlo|]. eapply Qle_lt_trans; eassumption. }
  apply Qpower_lt_compat_l_inv in H; [|done]. lia.
Qed.

Lemma round_half_even_Qeq (x y : Q) : x == y → round_half_even x = round_half_even y.
Proof.
  intros Hxy. unfold round_half_even.
  assert (Hf : Qfloor x = Qfloor y) by (by rewrite Hxy).
  rewrite Hf.
  assert (Hc : Qcompare (x - inject_Z (Qfloor y)) (1 # 2)
               = Qcompare (y - inject_Z (Qfloor y)) (1 # 2)) by (by rewrite Hxy).
  by rewrite Hc.
Qed.

Lemma round_half_even_mono (x y : Q) :
  x <= y → (round_half_even x <= round_half_even y)%Z.
Proof.
  intros Hxy.
  pose proof (Qfloor_resp_le _ _ Hxy) as Hf.
  destruct (Z.eq_dec (Qfloor x) (Qfloor y)) as [Heq|Hne].
  - unfold round_half_even. rewrite Heq.
    destruct (Qcompare_spec (x - inject_Z (Qfloor y)) (1 # 2)) as [Hx|Hx|Hx];
    destruct (Qcompare_spec (y - inject_Z (Qfloor y)) (1 # 2)) as [Hy|Hy|Hy];
      try destruct (Z.even _); try lia; exfalso; lra.
  - destruct (round_half_even_floor x) as [-> | ->];
    destruct (round_half_even_floor y) as [-> | ->]; lia.
Qed.

(** The rounded value depends on the exact result only, not on the fraction
    that writes it. *)
Lemma round_binary64_Qeq (x y : Q) : x == y → round_binary64 x = round_binary64 y.
Proof.
  intros Hxy. unfold round_binary64.
  assert (Hz : Qeq_bool x 0 = Qeq_bool y 0).
  { apply eq_true_iff_eq. rewrite !Qeq_bool_iff. by rewrite Hxy. }
  rewrite Hz. destruct (Qeq_bool y 0) eqn:E; [done|].
  assert (Hy0 : ¬ y == 0) by (by apply Qeq_bool_neq).
  assert (Hk : ulp_exponent x = ulp_exponent y).
  { unfold ulp_exponent. f_equal. f_equal. apply ilog2_Qeq; [by rewrite Hxy|].
    rewrite Hxy. destruct (Qlt_le_dec 0 (Qabs y)) as [Hpos|Hle]; [done|].
    exfalso. apply Hy0.
    assert (Habs : Qabs y == 0) by (apply Qle_antisym; [done|apply Qabs_nonneg]).
    revert Habs. apply Qabs_case; intros; lra. }
  rewrite Hk. apply Qred_complete.
  assert (Hm : round_half_even (x / 2 ^ ulp_exponent y)
               = round_half_even (y / 2 ^ ulp_exponent y)).
  { apply round_half_even_Qeq. by rewrite Hxy. }
  by rewrite Hm.
Qed.

(** Rounding to the nearest double is monotone on non-negative results. *)
Lemma round_binary64_mono (x y : Q) :
  0 <= x → x <= y → round_binary64 x <= round_binary64 y.
Proof.
  intros Hx0 Hxy.
  destruct (Qeq_dec x 0) as [Ex|Ex].
  { rewrite (round_binary64_zero x Ex). apply round_binary64_nonneg.
    eapply Qle_trans; eassumption. }
  assert (Hx : 0 < x).
  { apply Qle_lt_or_eq in Hx0 as [?|Heq]; [done|]. by symmetry in Heq. }
  assert (Hy : 0 < y) by (eapply Qlt_le_trans; eassumption).
  assert (Ey : ¬ y == 0) by (intros E; rewrite E in Hy; by apply Qlt_irrefl in Hy).
  rewrite (round_binary64_grid x Ex), (round_binary64_grid y Ey).
  rewrite (ulp_exponent_pos x Hx), (ulp_exponent_pos y Hy).
  pose proof (ilog2_mono x y Hx Hxy) as He.
  set (ex := ilog2 x) in *. set (ey := ilog2 y) in *.
  set (kx := Z.max (ex - 52) (-1074)). set (ky := Z.max (ey - 52) (-1074)).
  destruct (Z.eq_dec kx ky) as [Hk|Hk].
  - rewrite Hk. apply Qmult_le_compat_r; [|apply Qlt_le_weak, two_power_pos].
    rewrite <- Zle_Qle. apply round_half_even_mono.
    apply Qmult_le_compat_r; [done|].
    apply Qlt_le_weak, Qinv_lt_0_compat, two_power_pos.
  - assert (Hlt : (kx < ky)%Z) by lia.
    assert (Hky : ky = (ey - 52)%Z) by lia.
    destruct (ilog2_spec x Hx) as [_ Hxhi]. fold ex in Hxhi.
    destruct (ilog2_spec y Hy) as [Hylo _]. fold ey in Hylo.
    apply Qle_trans with (2 ^ ey).
    + assert (Hgrid : 2 ^ ey == inject_Z (2 ^ (ey - kx)) * 2 ^ kx).
      { rewrite Zpower_Qpower by lia. change (inject_Z 2) with 2.
        rewrite <- Qpower_plus by done. by replace (ey - kx + kx)%Z with ey by lia. }
      rewrite Hgrid. apply Qmult_le_compat_r; [|apply Qlt_le_weak, two_power_pos].
      rewrite <- Zle_Qle. apply round_half_even_le.
      apply Qle_shift_div_r; [apply two_power_pos|]. rewrite <- Hgrid.
      apply Qlt_le_weak. eapply Qlt_le_trans; [exact Hxhi|].
      apply Qpower_le_compat_l; [lia|done].
    + assert (Hgrid : 2 ^ ey == inject_Z (2 ^ 52) * 2 ^ ky).
      { rewrite (Zpower_Qpower 2 52) by lia. change (inject_Z 2) with 2.
        rewrite <- Qpower_plus by done. by replace (52 + ky)%Z with ey by lia. }
      rewrite Hgrid. apply Qmult_le_compat_r; [|apply Qlt_le_weak, two_power_pos].
      rewrite <- Zle_Qle. apply round_half_even_ge.
      apply Qle_shift_div_l; [apply two_power_pos|]. by rewrite <- Hgrid.
Qed.

Lemma to_float_Qeq (x y : Q) : x == y → to_float x = to_float y.
Proof. intros Hxy. unfold to_float. by rewrite (round_binary64_Qeq x y Hxy). Qed.

Lemma truediv_fraction (a b c d : Z) :
  b ≠ 0%Z → d ≠ 0%Z → (a * d = c * b)%Z → truediv a b = truediv c d.
Proof.
  intros Hb Hd Heq. unfold truediv.
  rewrite !decide_False by done.
  assert (Hq : inject_Z a / inject_Z b == inject_Z c / inject_Z d).
  { assert (Hb' : ¬ inject_Z b == 0).
    { change 0 with (inject_Z 0). by rewrite inject_Z_injective. }
    assert (Hd' : ¬ inject_Z d == 0).
    { change 0 with (inject_Z 0). by rewrite inject_Z_injective. }
    assert (Hmul : inject_Z a * inject_Z d == inject_Z c * inject_Z b).
    { rewrite <- !inject_Z_mult. by rewrite Heq. }
    field_simplify_eq; [|by split]. rewrite Hmul. ring. }
  by rewrite (to_float_Qeq _ _ Hq).
Qed.

Local Close Scope Q_scope.

(** X12: The ratio-percentage depends on the two row counts through their
    quotient only: two pairs of tables with equal count ratios give the same
    float; in particular equal non-zero counts give exactly 100.0. *)
Theorem ratio_percentage_fraction (num1 denom1 num2 denom2 : DataFrame) :
  len denom1 ≠ 0 → len denom2 ≠ 0 →
  len num1 * len denom2 = len num2 * len denom1 →
  ratio_percentage num1 denom1 = ratio_percentage num2 denom2 ∧
  (len num1 = len denom1 → ratio_percentage num1 denom1 = Ok (Finite 100%Q)).
Proof.
  intros H1 H2 Heq.
  assert (Hfrac : ∀ n1 d1 n2 d2 : DataFrame, len d1 ≠ 0 → len d2 ≠ 0 →
            len n1 * len d2 = len n2 * len d1 →
            ratio_percentage n1 d1 = ratio_percentage n2 d2).
  { intros n1 d1 n2 d2 Hd1 Hd2 Hcross. unfold ratio_percentage.
    rewrite (truediv_fraction (Z.of_nat (len n1)) (Z.of_nat (len d1))
               (Z.of_nat (len n2)) (Z.of_nat (len d2))); [reflexivity|lia|lia|].
    rewrite <- !Nat2Z.inj_mul. by f_equal. }
  split; [by apply Hfrac|].
  intros Hsame.
  rewrite (Hfrac num1 denom1 (mkDataFrame [] [[]]) (mkDataFrame [] [[]]));
    [vm_compute; reflexivity|exact H1|discriminate|].
  change (len (mkDataFrame [] [[]])) with 1. lia.
Qed.

Lemma ratio_percentage_fraction_witness :
  ratio_percentage whiff_table_hits whiff_table_foul_tips
  = ratio_percentage whiff_table_foul_tips whiff_table_hits ∧
  ratio_percentage whiff_table_hits whiff_table_foul_tips = Ok (Finite 100%Q).
Proof.
  pose proof (ratio_percentage_fraction whiff_table_hits whiff_table_foul_tips
                whiff_table_foul_tips whiff_table_hits) as H.
  destruct H as [Hsame Hfull]; [discriminate|discriminate|reflexivity|].
  split; [exact Hsame|]. apply Hfull. reflexivity.
Defined.

Local Open Scope Q_scope.

Lemma percent_steps_mono (n1 n2 d : Z) (z1 z2 : Q) :
  (0 <= n1 <= n2)%Z → (n2 <= d)%Z → (0 < d)%Z →
  (q ← truediv n1 d; py_round (fmul_int q 100) 2) = Ok (Finite z1) →
  (q ← truediv n2 d; py_round (fmul_int q 100) 2) = Ok (Finite z2) →
  z1 <= z2.
Proof.
  intros Hn1 Hn2 Hd.
  destruct (truediv_unit_interval n1 d) as (q1 & Hq1 & Hq10 & Hq11 & _); [lia|lia|].
  destruct (truediv_unit_interval n2 d) as (q2 & Hq2 & Hq20 & Hq21 & _); [lia|lia|].
  rewrite Hq1, Hq2. cbn [mbind result_bind].
  destruct (fmul_int_percent q1 Hq10 Hq11) as (y1 & Hy1 & Hy10 & Hy11 & _).
  destruct (fmul_int_percent q2 Hq20 Hq21) as (y2 & Hy2 & Hy20 & Hy21 & _).
  rewrite Hy1, Hy2. intros Hz1 Hz2.
  apply py_round_Finite_inv in Hz1, Hz2. subst z1 z2.
  apply fmul_int_Finite_inv in Hy1, Hy2.
  apply truediv_Finite_inv in Hq1, Hq2.
  assert (Hd' : 0 < inject_Z d).
  { change 0 with (inject_Z 0). rewrite <- Zlt_Qlt. lia. }
  assert (Hq : q1 <= q2).
  { subst q1 q2. apply round_binary64_mono.
    - apply Qle_shift_div_l; [done|]. rewrite Qmult_0_l.
      change 0 with (inject_Z 0). rewrite <- Zle_Qle. lia.
    - apply Qmult_le_compat_r; [rewrite <- Zle_Qle; lia|].
      by apply Qlt_le_weak, Qinv_lt_0_compat. }
  assert (Hy : y1 <= y2).
  { subst y1 y2. apply round_binary64_mono.
    - apply Qmult_le_0_compat; [exact Hq10|done].
    - apply Qmult_le_compat_r; [exact Hq|done]. }
  apply round_binary64_mono.
  - apply Qle_shift_div_l; [done|]. rewrite Qmult_0_l.
    change 0 with (inject_Z 0). rewrite <- Zle_Qle.
    apply round_half_even_ge. change (inject_Z 0) with 0.
    apply Qmult_le_0_compat; [exact Hy10|done].
  - apply Qmult_le_compat_r; [|done].
    rewrite <- Zle_Qle. apply round_half_even_mono.
    apply Qmult_le_compat_r; [exact Hy|done].
Qed.

Local Close Scope Q_scope.

(** X13: More rows in the numerator never lower the percentage: for two
    numerator tables no longer than a non-empty denominator table, both
    ratio-percentages are returned and the one of the longer numerator is at
    least the other. *)
Theorem ratio_percentage_monotone (num1 num2 denom : DataFrame) :
  (len num1 ≤ len num2)%nat → (len num2 ≤ len denom)%nat → (0 < len denom)%nat →
  ∃ q1 q2,
    ratio_percentage num1 denom = Ok (Finite q1) ∧
    ratio_percentage num2 denom = Ok (Finite q2) ∧
    (q1 <= q2)%Q.
Proof.
  intros H12 H2d Hd.
  destruct (ratio_percentage_range num1 denom) as (q1 & Hq1 & _); [lia|lia|].
  destruct (ratio_percentage_range num2 denom) as (q2 & Hq2 & _); [lia|lia|].
  exists q1, q2. split; [exact Hq1|]. split; [exact Hq2|].
  apply (percent_steps_mono (Z.of_nat (len num1)) (Z.of_nat (len num2))
           (Z.of_nat (len denom))); [lia|lia|lia|exact Hq1|exact Hq2].
Qed.

Lemma ratio_percentage_monotone_witness :
  ∃ q1 q2,
    ratio_percentage sample_table whiff_table_hits = Ok (Finite q1) ∧
    ratio_percentage xwoba_table whiff_table_hits = Ok (Finite q2) ∧
    (q2 <= q1)%Q.
Proof.
  destruct (ratio_percentage_monotone xwoba_table sample_table whiff_table_hits)
    as (q2 & q1 & H2 & H1 & Hle).
  - vm_compute. lia.
  - vm_compute. lia.
  - vm_compute. lia.
  - exists q1, q2. split; [exact H1|]. split; [exact H2|exact Hle].
Defined.

(** ** Witnesses for the provider facts *)

Lemma player_id_unique_match_witness :
  player_id sample_lookup "Holliday" "Jackson" = Ok 702616%Z ∧
  player_id lookup_no_match "Holliday" "Jackson" = Raise TypeError ∧
  player_id lookup_two_matches "Rodon" "Carlos" = Raise TypeError.
Proof.
  split; [reflexivity|]. split.
  - destruct (player_id_unique_match lookup_no_match "Holliday" "Jackson")
      as (_ & H).
    destruct (H _ eq_refl) as (_ & Hlen & _).
    apply Hlen; [do 2 right; left|discriminate].
  - destruct (player_id_unique_match lookup_two_matches "Rodon" "Carlos")
      as (_ & H).
    destruct (H _ eq_refl) as (_ & Hlen & _).
    apply Hlen; [do 2 right; left|discriminate].
Defined.

Lemma player_data_filtered_missing_column_witness :
  ∃ k, k ∈ projected_columns ∧ (k ∉ columns sample_table) ∧
       player_data_filtered sample_lookup short_statcast
         "2024-04-10" "2024-04-23" "Holliday" "Jackson" "all" "all" "all"
       = Raise (KeyError k).
Proof.
  apply (player_data_filtered_missing_column sample_lookup short_statcast
           "2024-04-10" "2024-04-23" "Holliday" "Jackson" "all" "all" "all"
           702616%Z sample_table); [reflexivity|reflexivity|].
  intros Hsub.
  assert (Hin : "batter" ∈ columns sample_table).
  { apply Hsub. do 6 right. left. }
  repeat (apply elem_of_cons in Hin as [Hin|Hin]; [discriminate|]).
  by apply elem_of_nil in Hin.
Defined.

(** ** Colours of the outcome codes *)

(** X14: Every pitch a recognized outcome selector keeps has a colour: each code
    of each outcome group is a key of [pitch_colors_dict], the codes of a
    group other than "swing" share one colour, and so every row the filter
    keeps under a recognized outcome selector carries a coloured code. *)
Theorem outcome_codes_have_colours :
  (∀ g codes x, descriptions !! g = Some codes → x ∈ codes →
                is_Some (pitch_colors_dict !! x)) ∧
  (∀ g codes x y, descriptions !! g = Some codes → g ≠ "swing" →
                  x ∈ codes → y ∈ codes →
                  pitch_colors_dict !! x = pitch_colors_dict !! y) ∧
  (∀ (T : DataFrame) (p d h : string) (ip id ih : nat) codes,
     column_index T "pitch_type" = Ok ip →
     column_index T "description" = Ok id →
     column_index T "p_throws" = Ok ih →
     descriptions !! d = Some codes →
     ∃ T', filter_engine T p d h = Ok T' ∧
           ∀ r, r ∈ rows T' →
             ∃ x colour, raw_code id r = Some x ∧
                         pitch_colors_dict !! x = Some colour).
Proof.
  assert (Hcol : ∀ g codes x, descriptions !! g = Some codes → x ∈ codes →
                              is_Some (pitch_colors_dict !! x)).
  { assert (Hb : codes_colouredb = true) by (vm_compute; reflexivity).
    unfold codes_colouredb in Hb. rewrite forallb_forall in Hb.
    intros g codes x Hg Hx.
    apply elem_of_map_to_list, list_elem_of_In in Hg.
    specialize (Hb _ Hg). cbn [fst snd] in Hb. rewrite forallb_forall in Hb.
    apply list_elem_of_In in Hx. specialize (Hb _ Hx).
    apply bool_decide_eq_true in Hb. exact Hb. }
  split; [exact Hcol|]. split.
  - assert (Hb : groups_one_colourb = true) by (vm_compute; reflexivity).
    unfold groups_one_colourb in Hb. rewrite forallb_forall in Hb.
    intros g codes x y Hg Hne Hx Hy.
    apply elem_of_map_to_list, list_elem_of_In in Hg.
    specialize (Hb _ Hg). cbn [fst snd] in Hb.
    apply orb_true_iff in Hb as [Hb|Hb].
    { apply bool_decide_eq_true in Hb. exfalso. apply Hne. exact Hb. }
    clear Hg. destruct codes as [|c rest]; [apply elem_of_nil in Hx; destruct Hx|].
    cbn [one_colourb] in Hb. rewrite forallb_forall in Hb.
    assert (Hfirst : ∀ z, z ∈ c :: rest →
              pitch_colors_dict !! z = pitch_colors_dict !! c).
    { intros z Hz.
      apply elem_of_cons in Hz as [->|Hz]; [reflexivity|].
      apply list_elem_of_In in Hz. specialize (Hb _ Hz).
      apply bool_decide_eq_true in Hb. exact Hb. }
    rewrite (Hfirst x Hx), (Hfirst y Hy). reflexivity.
  - intros T p d h ip id ih codes Hp Hd Hh Hcodes.
    rewrite (filter_engine_spec T p d h ip id ih Hp Hd Hh).
    eexists. split; [reflexivity|].
    intros r Hr. rewrite restrict_rows in Hr.
    apply list_elem_of_filter in Hr as [_ Hr].
    rewrite Hcodes, restrict_rows in Hr.
    apply list_elem_of_filter in Hr as [Hkeep _]. cbn [keeps] in Hkeep.
    apply has_code_true in Hkeep as (x & Hx & Hin).
    destruct (Hcol d codes x Hcodes Hin) as [colour Hcolour].
    exists x, colour. split; [exact Hx|exact Hcolour].
Qed.

Lemma outcome_codes_have_colours_witness :
  is_Some (pitch_colors_dict !! "foul_tip") ∧
  pitch_colors_dict !! "swinging_strike" = pitch_colors_dict !! "foul_tip" ∧
  ∃ T', filter_engine sample_table "all" "swing" "all" = Ok T' ∧
        ∀ r, r ∈ rows T' →
          ∃ x colour, raw_code 2 r = Some x ∧ pitch_colors_dict !! x = Some colour.
Proof.
  destruct outcome_codes_have_colours as (H1 & H2 & H3).
  split; [|split].
  - apply (H1 "swinging strike"
             ["swinging_strike"; "swinging_strike_blocked"; "foul_tip"]);
      [reflexivity|do 2 right; left].
  - apply (H2 "swinging strike"
             ["swinging_strike"; "swinging_strike_blocked"; "foul_tip"]);
      [reflexivity|discriminate|left|do 2 right; left].
  - apply (H3 sample_table "all" "swing" "all" 1 2 5
             ["hit_into_play"; "swinging_strike"; "swinging_strike_blocked";
              "foul_tip"; "foul"]); reflexivity.
Defined.
